(** * Auric shield activator: the shield composition logic of [main.js]

    A shallow embedding of the decision logic of [src/main.js]: the global
    [state] object, the parts of the page and of the THREE.js scene that the
    handlers write, the sigil generator, and the click handlers.

    Conventions of the embedding.
    - JavaScript numbers that hold integers (character codes, canvas sizes,
      parsed colours) are [Z]; numbers that hold fractions (opacities, angles,
      coordinates) are real numbers [R], with [Math.cos], [Math.sin] and
      [Math.PI] read as [cos], [sin] and [PI].  Rounding of IEEE doubles is
      not modelled.
    - A JavaScript string is the list of its UTF-16 code units.
    - Handlers run to completion, one per event: a handler is a function
      [World -> World], an uncaught exception ends the handler and keeps the
      writes made before it.
    - Sound playback, the CSS class [selected], the text of
      [final-energy-type] and the animation frame (which writes rotations and
      the aura opacity only) are left out.  The value of [sigil-input] is
      carried by the click that submits it, so the restart handler's write to
      it is left out too. *)

From Stdlib Require Import ZArith List Bool String Ascii Lia.
From Stdlib Require Import Reals Lra.
Import ListNotations.

(** ** JavaScript values *)

(** A string, as the sequence of its UTF-16 code units. *)
Definition jsstring := list Z.

(** The code units of a literal written with Basic Latin characters. *)
Definition lit (s : string) : jsstring :=
  map (fun c => Z.of_N (N_of_ascii c)) (list_ascii_of_string s).

(** The integer-valued numbers the program stores, and NaN. *)
Inductive jsnum :=
| NaN
| Num (z : Z).

(** Page elements the program keeps references to. *)
Inductive element :=
| sigil_canvas.

Inductive jsval :=
| JNull
| JUndefined
| JNumber (n : jsnum)
| JString (s : jsstring)
| JElement (e : element).

(** ToBoolean, as used by [if (v)], [!v] and [&&]. *)
Definition truthy (v : jsval) : bool :=
  match v with
  | JNull | JUndefined => false
  | JNumber NaN => false
  | JNumber (Num z) => negb (z =? 0)%Z
  | JString s => match s with [] => false | _ :: _ => true end
  | JElement _ => true
  end.

Definition is_null (v : jsval) : bool :=
  match v with JNull => true | _ => false end.

(** A [dataset] entry: the attribute's string, or undefined when the element
    has no such attribute. *)
Definition dataset (attribute : option jsstring) : jsval :=
  match attribute with
  | Some s => JString s
  | None => JUndefined
  end.

(** ** String built-ins *)

(** WhiteSpace and LineTerminator code units, the ones [trim] strips. *)
Definition isWhiteSpace (c : Z) : bool :=
  ((9 <=? c) && (c <=? 13) || (c =? 32) || (c =? 160) || (c =? 5760)
   || (8192 <=? c) && (c <=? 8202) || (c =? 8232) || (c =? 8233)
   || (c =? 8239) || (c =? 8287) || (c =? 12288) || (c =? 65279))%Z.

Fixpoint dropWhile (p : Z -> bool) (s : jsstring) : jsstring :=
  match s with
  | [] => []
  | c :: s' => if p c then dropWhile p s' else s
  end.

(** [String.prototype.trim]. *)
Definition trim (s : jsstring) : jsstring :=
  rev (dropWhile isWhiteSpace (rev (dropWhile isWhiteSpace s))).

Definition jsstring_eqb (a b : jsstring) : bool :=
  if list_eq_dec Z.eq_dec a b then true else false.

(** The guard of [generateSigil]: [!word || word.trim() === '']. *)
Definition is_blank (word : jsstring) : bool :=
  negb (truthy (JString word)) || jsstring_eqb (trim word) [].

(** The Basic Latin part of the case mapping: a-z to A-Z. *)
Definition upperUnit (c : Z) : Z :=
  if ((97 <=? c) && (c <=? 122))%Z then (c - 32)%Z else c.

(** A case mapping that changes Basic Latin letters only; the instance used
    to run the model on concrete words. *)
Definition asciiUpper (s : jsstring) : jsstring := map upperUnit s.

(** The case mapping on the sharp s, [U+00DF], whose upper-case form is the
    two letters [SS], and on Basic Latin; other code units are left alone. *)
Definition upperUnits (c : Z) : list Z :=
  if (c =? 223)%Z then [83; 83]%Z else [upperUnit c].

(** A case mapping that lengthens a string, as the host's does on the sharp
    s; a second instance to run the model on. *)
Definition sharpUpper (s : jsstring) : jsstring := flat_map upperUnits s.

(** What is used of the host's [String.prototype.toUpperCase]: on Basic
    Latin strings it is [upperUnit] unit by unit, and it never empties a
    string. *)
Definition basic_latin (s : jsstring) : Prop :=
  Forall (fun c => (0 <= c < 128)%Z) s.

Record case_mapping (toUpperCase : jsstring -> jsstring) : Prop := {
  upper_basic_latin : forall s, basic_latin s -> toUpperCase s = map upperUnit s;
  upper_nonempty : forall s, s <> [] -> toUpperCase s <> []
}.

(** ** The global [state] object (main.js, lines 4-17) *)

Module shield.
Record t := mk { color : jsval; symbol : jsval; sigil : jsval }.
End shield.

Module choicesMade.
Record t := mk { color : bool; symbol : bool; sigil : bool }.
End choicesMade.

Record State := mkState {
  currentScreen : jsstring;
  energyType : jsval;
  shield : shield.t;
  choicesMade : choicesMade.t
}.

(** ** The page *)

Inductive Screen :=
| intro_screen
| diagnostic_screen
| construction_screen
| activation_screen.

Record Point := mkPoint { x : R; y : R }.

Inductive PathCmd :=
| moveTo (p : Point)
| lineTo (p : Point)
| closePath.

(** The drawing state of the 2D context that [generateSigil] writes. *)
Record Context2D := mkContext {
  strokeStyle : string;
  lineWidth : Z;
  shadowColor : string;
  shadowBlur : Z;
  path : list PathCmd
}.

(** One [ctx.stroke()]: the current path drawn with the current style. *)
Record Stroke := mkStroke {
  stroke_style : string;
  stroke_width : Z;
  stroke_path : list PathCmd
}.

(** The element [sigil-canvas]: its size, what has been drawn on it since it
    was last cleared, and its 2D context. *)
Record Canvas := mkCanvas {
  width : Z;
  height : Z;
  drawn : list Stroke;
  ctx : Context2D
}.

Record Document := mkDocument {
  active : list Screen;              (* the [.screen] elements of class [active] *)
  activate_shield_btn_disabled : bool;
  canvas : Canvas
}.

(** ** The THREE.js scene *)

Inductive Wrapping := ClampToEdgeWrapping | RepeatWrapping.

Record Texture := mkTexture {
  image : jsval;                     (* a URL, or the canvas element *)
  wrapS : Wrapping;
  wrapT : Wrapping;
  repeat : Z * Z
}.

(** [shieldSphere.material]. *)
Record MeshMaterial := mkMaterial {
  mat_color : jsval;
  mat_emissive : jsval;
  emissiveIntensity : R;
  opacity : R;
  map_ : option Texture
}.

Record SpriteMaterial := mkSpriteMaterial {
  sm_map : Texture;
  sm_color : Z;
  sm_transparent : bool;
  sm_opacity : R
}.

Record Sprite := mkSprite {
  sprite_id : nat;                   (* the identity of the object *)
  sprite_material : SpriteMaterial;
  position : R * R * R;
  scale : R * R * R
}.

Inductive Object3D :=
| starfield
| aura
| shieldSphere
| ambientLight
| pointLight
| sprite (id : nat).

Record Three := mkThree {
  scene : list Object3D;             (* [scene.children] *)
  aura_emissiveIntensity : R;
  shieldSphere_material : MeshMaterial;
  symbolObjects : list Sprite;
  next_id : nat                      (* identity of the next object created *)
}.

Record World := mkWorld {
  state : State;
  document : Document;
  three : Three
}.

(** What the page markup (not part of the sources) fixes: the size of the
    sigil canvas, which screens start active, and whether the activate button
    starts disabled. *)
Record Markup := mkMarkup {
  canvas_width : Z;
  canvas_height : Z;
  initially_active : list Screen;
  activate_initially_disabled : bool
}.

Definition initial_state : State :=
  mkState (lit "intro") JNull
          (shield.mk JNull JNull JNull)
          (choicesMade.mk false false false).

(** The scene after [initThree] (lines 61-113). *)
Definition initial_three : Three :=
  mkThree [starfield; aura; shieldSphere; ambientLight; pointLight]
          0
          (mkMaterial (JNumber (Num 16777215)) (JNumber (Num 0)) 1 0 None)
          []
          0.

Definition initial_world (m : Markup) : World :=
  mkWorld initial_state
          (mkDocument (initially_active m) (activate_initially_disabled m)
             (mkCanvas (canvas_width m) (canvas_height m) []
                (mkContext "#000000" 1 "rgba(0, 0, 0, 0)" 0 [])))
          initial_three.

(** ** Writes to the world *)

Definition set_state (f : State -> State) (w : World) : World :=
  mkWorld (f (state w)) (document w) (three w).

Definition set_document (f : Document -> Document) (w : World) : World :=
  mkWorld (state w) (f (document w)) (three w).

Definition set_three (f : Three -> Three) (w : World) : World :=
  mkWorld (state w) (document w) (f (three w)).

Definition set_shield (f : shield.t -> shield.t) : World -> World :=
  set_state (fun s => mkState (currentScreen s) (energyType s) (f (shield s)) (choicesMade s)).

Definition set_choicesMade (f : choicesMade.t -> choicesMade.t) : World -> World :=
  set_state (fun s => mkState (currentScreen s) (energyType s) (shield s) (f (choicesMade s))).

Definition set_energyType (v : jsval) : World -> World :=
  set_state (fun s => mkState (currentScreen s) v (shield s) (choicesMade s)).

Definition set_canvas (f : Canvas -> Canvas) : World -> World :=
  set_document (fun d => mkDocument (active d) (activate_shield_btn_disabled d) (f (canvas d))).

Definition set_ctx (f : Context2D -> Context2D) : World -> World :=
  set_canvas (fun c => mkCanvas (width c) (height c) (drawn c) (f (ctx c))).

Definition set_disabled (b : bool) : World -> World :=
  set_document (fun d => mkDocument (active d) b (canvas d)).

Definition set_material (f : MeshMaterial -> MeshMaterial) : World -> World :=
  set_three (fun t => mkThree (scene t) (aura_emissiveIntensity t)
                        (f (shieldSphere_material t)) (symbolObjects t) (next_id t)).

Definition set_opacity (o : R) : World -> World :=
  set_material (fun m => mkMaterial (mat_color m) (mat_emissive m) (emissiveIntensity m) o (map_ m)).

Definition set_aura_emissiveIntensity (e : R) : World -> World :=
  set_three (fun t => mkThree (scene t) e (shieldSphere_material t) (symbolObjects t) (next_id t)).

(** Statements in sequence. *)
Definition seq_ (f g : World -> World) : World -> World := fun w => g (f w).
Notation "f ;; g" := (seq_ f g) (at level 61, right associativity).

(** ** UI navigation (lines 49-55) *)

(** Every [.screen] loses the class [active]; the element [screenId] gets it. *)
Definition switchScreen (screenId : Screen) : World -> World :=
  set_document (fun d => mkDocument [screenId] (activate_shield_btn_disabled d) (canvas d)).

(** ** Scene graph operations used by the program *)

Definition Object3D_eqb (a b : Object3D) : bool :=
  match a, b with
  | starfield, starfield | aura, aura | shieldSphere, shieldSphere
  | ambientLight, ambientLight | pointLight, pointLight => true
  | sprite i, sprite j => Nat.eqb i j
  | _, _ => false
  end.

(** [scene.remove(obj)]: the first occurrence of the object leaves the
    children. *)
Fixpoint scene_remove (obj : Object3D) (children : list Object3D) : list Object3D :=
  match children with
  | [] => []
  | o :: rest => if Object3D_eqb o obj then rest else o :: scene_remove obj rest
  end.

(** [scene.add(obj)] for a newly created object. *)
Definition scene_add (obj : Object3D) (children : list Object3D) : list Object3D :=
  children ++ [obj].

(** [textureLoader.load(url)] and [new THREE.CanvasTexture(canvas)]. *)
Definition new_texture (source : jsval) : Texture :=
  mkTexture source ClampToEdgeWrapping ClampToEdgeWrapping (1, 1)%Z.

(** ** Shield construction logic (lines 141-187) *)

Open Scope R_scope.

(** Lines 143-148. *)
Definition colorStep (w : World) : World :=
  let c := shield.color (shield (state w)) in
  if truthy c then
    set_material (fun m => mkMaterial c c 0.5 0.2 (map_ m)) w
  else w.

(** One turn of the loop of lines 158-165. *)
Definition add_symbol (symbolMaterial : SpriteMaterial) (t : Three) (i : nat) : Three :=
  let angle := (INR i / 3) * PI * 2 in
  let symbolSprite :=
    mkSprite (next_id t) symbolMaterial
             (cos angle * 2.2, sin angle * 2.2, 0) (0.5, 0.5, 0.5) in
  mkThree (scene_add (sprite (sprite_id symbolSprite)) (scene t))
          (aura_emissiveIntensity t) (shieldSphere_material t)
          (symbolObjects t ++ [symbolSprite])
          (S (next_id t)).

(** Lines 153-154: every previous marker leaves the scene, and the array is
    replaced by an empty one. *)
Definition clear_symbols (t : Three) : Three :=
  mkThree (fold_left (fun children obj => scene_remove (sprite (sprite_id obj)) children)
                     (symbolObjects t) (scene t))
          (aura_emissiveIntensity t) (shieldSphere_material t) [] (next_id t).

(** Lines 151-166. *)
Definition symbolStep (w : World) : World :=
  let s := shield.symbol (shield (state w)) in
  if truthy s then
    let symbolTexture := new_texture s in
    let symbolMaterial := mkSpriteMaterial symbolTexture 16777215 true 0.8 in
    set_three (fun t => fold_left (add_symbol symbolMaterial) (seq 0 3) (clear_symbols t)) w
  else w.

(** Lines 169-176. *)
Definition sigilStep (w : World) : World :=
  let s := shield.sigil (shield (state w)) in
  if truthy s then
    set_material (fun m =>
      mkMaterial (mat_color m) (mat_emissive m) (emissiveIntensity m)
                 (Rmax (opacity m) 0.3)
                 (Some (mkTexture s RepeatWrapping RepeatWrapping (3, 2)%Z))) w
  else w.

Definition updateShieldVisuals : World -> World :=
  colorStep ;; symbolStep ;; sigilStep.

(** The condition of line 182. *)
Definition isComplete (c : choicesMade.t) : bool :=
  choicesMade.color c && choicesMade.symbol c && choicesMade.sigil c.

Definition checkConstructionComplete (w : World) : World :=
  if isComplete (choicesMade (state w)) then set_disabled false w
  else set_disabled true w.

(** ** Sigil generation (lines 191-229) *)

(** [ctx.clearRect(0, 0, width, height)]: the whole canvas is cleared. *)
Definition ctx_clearRect : World -> World :=
  set_canvas (fun c => mkCanvas (width c) (height c) [] (ctx c)).

Definition ctx_style (style : string) (lw : Z) (shadow : string) (blur : Z) : World -> World :=
  set_ctx (fun c => mkContext style lw shadow blur (path c)).

Definition ctx_beginPath : World -> World :=
  set_ctx (fun c => mkContext (strokeStyle c) (lineWidth c) (shadowColor c) (shadowBlur c) []).

Definition ctx_path (cmd : PathCmd) : World -> World :=
  set_ctx (fun c => mkContext (strokeStyle c) (lineWidth c) (shadowColor c) (shadowBlur c)
                      (path c ++ [cmd])).

Definition ctx_stroke : World -> World :=
  set_canvas (fun c =>
    mkCanvas (width c) (height c)
             (drawn c ++ [mkStroke (strokeStyle (ctx c)) (lineWidth (ctx c)) (path (ctx c))])
             (ctx c)).

(** [Array.prototype.map] with the index passed to the callback. *)
Fixpoint map_index_from {A B : Type} (f : A -> nat -> B) (index : nat) (l : list A) : list B :=
  match l with
  | [] => []
  | a :: l' => f a index :: map_index_from f (S index) l'
  end.

Definition map_index {A B : Type} (f : A -> nat -> B) (l : list A) : list B :=
  map_index_from f 0 l.

(** The callback of lines 206-213, for the character [char] (its code unit)
    at [index] of [n] characters on a canvas of the given size.  [%] is the
    remainder of the truncating division, [Z.rem]. *)
Definition sigil_point (width height : Z) (n : nat) (char : Z) (index : nat) : Point :=
  let charCode := (char - 65)%Z in
  let angle := (INR index / INR n) * PI * 2 in
  let radius := (IZR width / 2 - 10) * (IZR (Z.rem charCode 10) / 10 * 0.5 + 0.5) in
  let x := IZR width / 2 + cos angle * radius in
  let y := IZR height / 2 + sin angle * radius in
  mkPoint x y.

Definition sigil_points (width height : Z) (chars : jsstring) : list Point :=
  map_index (sigil_point width height (List.length chars)) chars.

(** Lines 215-223, from the first point on. *)
Definition draw_path (points : list Point) (p0 : Point) (rest : list Point) : World -> World :=
  ctx_path (moveTo p0) ;;
  (fun w => fold_left (fun w p => ctx_path (lineTo p) w) rest w) ;;
  (if (2 <? List.length points)%nat then ctx_path closePath else (fun w => w)) ;;
  ctx_stroke.

Section Generator.

(** [String.prototype.toUpperCase] of the host. *)
Variable toUpperCase : jsstring -> jsstring.

Definition generateSigil (word : jsstring) (w : World) : World :=
  let width := width (canvas (document w)) in
  let height := height (canvas (document w)) in
  let w := (ctx_clearRect ;; ctx_style "#00ffff" 2 "#00ffff" 10) w in
  if is_blank word then w
  else
    let chars := toUpperCase word in
    let points := sigil_points width height chars in
    let w := ctx_beginPath w in
    match points with
    | [] => w                       (* [points[0].x] throws a TypeError *)
    | p0 :: rest =>
        (draw_path points p0 rest ;;
         set_shield (fun s => shield.mk (shield.color s) (shield.symbol s)
                                        (JElement sigil_canvas)) ;;
         set_choicesMade (fun c => choicesMade.mk (choicesMade.color c)
                                     (choicesMade.symbol c) true) ;;
         updateShieldVisuals ;;
         checkConstructionComplete) w
    end.

(** ** Event listeners (lines 232-310) *)

Inductive event :=
| start_diagnostic_click
| answer_click (dataset_type : option jsstring)
| color_swatch_click (parsed_color : jsnum)   (* [parseInt(dataset.color)] *)
| symbol_option_click (dataset_symbol : option jsstring)
| generate_sigil_click (input : jsstring)     (* the value of [sigil-input] *)
| activate_shield_click
| restart_click.

Definition on_start_diagnostic : World -> World :=
  switchScreen diagnostic_screen ;; set_aura_emissiveIntensity 0.5.

Definition on_answer (dataset_type : option jsstring) : World -> World :=
  set_energyType (dataset dataset_type) ;; switchScreen construction_screen.

Definition on_color_swatch (parsed_color : jsnum) : World -> World :=
  set_shield (fun s => shield.mk (JNumber parsed_color) (shield.symbol s) (shield.sigil s)) ;;
  set_choicesMade (fun c => choicesMade.mk true (choicesMade.symbol c) (choicesMade.sigil c)) ;;
  updateShieldVisuals ;;
  checkConstructionComplete.

Definition on_symbol_option (dataset_symbol : option jsstring) : World -> World :=
  set_shield (fun s => shield.mk (shield.color s) (dataset dataset_symbol) (shield.sigil s)) ;;
  set_choicesMade (fun c => choicesMade.mk (choicesMade.color c) true (choicesMade.sigil c)) ;;
  updateShieldVisuals ;;
  checkConstructionComplete.

Definition on_activate_shield : World -> World :=
  switchScreen activation_screen ;;
  set_opacity 0.7 ;;
  set_aura_emissiveIntensity 1.0.

Definition on_restart : World -> World :=
  (* Reset state *)
  set_energyType JNull ;;
  set_shield (fun _ => shield.mk JNull JNull JNull) ;;
  set_choicesMade (fun _ => choicesMade.mk false false false) ;;
  (* Reset visuals *)
  set_opacity 0 ;;
  set_material (fun m => mkMaterial (mat_color m) (mat_emissive m) (emissiveIntensity m)
                           (opacity m) None) ;;
  set_aura_emissiveIntensity 0 ;;
  set_three clear_symbols ;;
  (* Reset UI *)
  ctx_clearRect ;;
  set_disabled true ;;
  switchScreen intro_screen.

Definition handler (e : event) : World -> World :=
  match e with
  | start_diagnostic_click => on_start_diagnostic
  | answer_click t => on_answer t
  | color_swatch_click c => on_color_swatch c
  | symbol_option_click s => on_symbol_option s
  | generate_sigil_click input => generateSigil input
  | activate_shield_click => on_activate_shield
  | restart_click => on_restart
  end.

(** What the page does with a click: a disabled button fires no click
    event, so the listener of [activate-shield-btn] runs only while the
    button is enabled.  No other control is ever disabled by the program. *)
Definition dispatch (e : event) (w : World) : World :=
  match e with
  | activate_shield_click =>
      if activate_shield_btn_disabled (document w) then w else handler e w
  | _ => handler e w
  end.

(** The world after a sequence of clicks on the page loaded from [m]. *)
Definition run (m : Markup) (clicks : list event) : World :=
  fold_left (fun w e => dispatch e w) clicks (initial_world m).

(** A submission is drawn when it passes the guard of line 203 and has a
    first point. *)
Definition is_drawn (word : jsstring) : bool :=
  negb (is_blank word)
  && match toUpperCase word with [] => false | _ :: _ => true end.

(** A click that submits a sigil that is drawn. *)
Definition drawn_click (e : event) : bool :=
  match e with generate_sigil_click input => is_drawn input | _ => false end.

End Generator.

(** ** Worlds named in the statements *)

(** The canvas is cleared and styled before the guard is tested. *)
Definition prepared : World -> World :=
  ctx_clearRect ;; ctx_style "#00ffff" 2 "#00ffff" 10.

(** The [state] object once a sigil is stored (lines 225-226). *)
Definition with_sigil (s : State) : State :=
  mkState (currentScreen s) (energyType s)
    (shield.mk (shield.color (shield s)) (shield.symbol (shield s)) (JElement sigil_canvas))
    (choicesMade.mk (choicesMade.color (choicesMade s))
                    (choicesMade.symbol (choicesMade s)) true).

(** A page with a canvas of the default size, the intro screen active and the
    activate button disabled, used to run the model. *)
Definition example_markup : Markup := mkMarkup 300 150 [intro_screen] true.

(** ** What is drawn on the canvas *)

Definition path_points (cmds : list PathCmd) : list Point :=
  flat_map (fun cmd => match cmd with
                       | moveTo p | lineTo p => [p]
                       | closePath => []
                       end) cmds.

(** The points of the glyph on the sigil canvas. *)
Definition glyph (w : World) : list Point :=
  flat_map (fun s => path_points (stroke_path s)) (drawn (canvas (document w))).

(** The strokes on the canvas, as paths. *)
Definition paths (w : World) : list (list PathCmd) :=
  List.map stroke_path (drawn (canvas (document w))).

(** A path is closed when it ends with [closePath]. *)
Definition closed (cmds : list PathCmd) : bool :=
  match rev cmds with
  | closePath :: _ => true
  | _ => false
  end.

(** The path commands issued for a list of points (lines 216-222). *)
Definition sigil_path (points : list Point) : list PathCmd :=
  match points with
  | [] => []
  | p0 :: rest =>
      moveTo p0 :: List.map lineTo rest
      ++ (if (2 <? List.length points)%nat then [closePath] else [])
  end.

(** ** The reading of the specification for the point of a character

    The formula as the specification words it, with [mod] the mathematical
    remainder, which is never negative. *)
Definition spec_point (width height : Z) (n : nat) (char : Z) (i : nat) : Point :=
  let value := (char - 65)%Z in
  let angle := (INR i / INR n) * (2 * PI) in
  let radius := (IZR width / 2 - 10) * (0.5 + 0.5 * (IZR (value mod 10) / 10)) in
  mkPoint (IZR width / 2 + cos angle * radius) (IZR height / 2 + sin angle * radius).

(** ** Click traces *)

Definition is_restart (e : event) : bool :=
  match e with restart_click => true | _ => false end.

Definition sets_color (e : event) : bool :=
  match e with color_swatch_click _ => true | _ => false end.

Definition sets_symbol (e : event) : bool :=
  match e with symbol_option_click _ => true | _ => false end.

(** A sigil submission whose text is not blank. *)
Definition sets_sigil (e : event) : bool :=
  match e with generate_sigil_click input => negb (is_blank input) | _ => false end.

(** The clicks that follow the last restart. *)
Definition since_reset (clicks : list event) : list event :=
  fold_left (fun recent e => if is_restart e then [] else recent ++ [e]) clicks [].

(** ** Invariants of the runs *)

(** The stored values after a click are null exactly where the flags are
    false, when that was so before the click. *)
Definition flags_match_values (w : World) : Prop :=
  choicesMade.color (choicesMade (state w)) = negb (is_null (shield.color (shield (state w))))
  /\ choicesMade.symbol (choicesMade (state w)) = negb (is_null (shield.symbol (shield (state w))))
  /\ choicesMade.sigil (choicesMade (state w)) = negb (is_null (shield.sigil (shield (state w)))).

(** The activate button is disabled exactly while construction is not
    complete, when that was so before the click. *)
Definition button_reports (w : World) : Prop :=
  activate_shield_btn_disabled (document w) = negb (isComplete (choicesMade (state w))).

(** ** The orbit markers *)

(** The identities of the sprites among the children of the scene. *)
Definition scene_sprites (children : list Object3D) : list nat :=
  flat_map (fun o => match o with sprite id => [id] | _ => [] end) children.

(** The marker number [i] of a symbol: the sprite of identity [n + i] that
    carries the symbol image, at [i] times 120 degrees on the circle of
    radius 2.2. *)
Definition marker (symbol : jsval) (n i : nat) : Sprite :=
  mkSprite (n + i)
           (mkSpriteMaterial (new_texture symbol) 16777215 true 0.8)
           (cos (INR i * (2 * PI / 3)) * 2.2, sin (INR i * (2 * PI / 3)) * 2.2, 0)
           (0.5, 0.5, 0.5).

Definition markers (symbol : jsval) (n : nat) : list Sprite :=
  [marker symbol n 0; marker symbol n 1; marker symbol n 2].

(** The markers of the scene are the ones of [symbolObjects], all created
    before the next identity. *)
Definition markers_in_scene (w : World) : Prop :=
  scene_sprites (scene (three w)) = List.map sprite_id (symbolObjects (three w))
  /\ Forall (fun s => (sprite_id s < next_id (three w))%nat) (symbolObjects (three w)).

(** A symbol that is present has its three markers. *)
Definition symbol_has_markers (w : World) : Prop :=
  truthy (shield.symbol (shield (state w))) = true ->
  exists n, symbolObjects (three w) = markers (shield.symbol (shield (state w))) n.

(** Two worlds with the same scene children, markers and next identity. *)
Definition same_markers (w w' : World) : Prop :=
  scene (three w') = scene (three w)
  /\ symbolObjects (three w') = symbolObjects (three w)
  /\ next_id (three w') = next_id (three w).

(** ** Navigation and scene structure named in the statements *)

(** The screen a click switches to, for the clicks whose listener calls
    [switchScreen]. *)
Definition target (e : event) : option Screen :=
  match e with
  | start_diagnostic_click => Some diagnostic_screen
  | answer_click _ => Some construction_screen
  | activate_shield_click => Some activation_screen
  | restart_click => Some intro_screen
  | _ => None
  end.

(** Whether the page delivers the click to its listener. *)
Definition delivered (e : event) (w : World) : bool :=
  match e with
  | activate_shield_click => negb (activate_shield_btn_disabled (document w))
  | _ => true
  end.

(** The objects [initThree] adds to the scene. *)
Definition base_objects : list Object3D :=
  [starfield; aura; shieldSphere; ambientLight; pointLight].

(** How a marker looks: everything but its identity. *)
Definition appearance (s : Sprite) : SpriteMaterial * (R * R * R) * (R * R * R) :=
  (sprite_material s, position s, scale s).

(** The answer the energy type comes from: the last answer click among the
    given clicks, if any. *)
Definition last_answer (clicks : list event) : option (option jsstring) :=
  fold_left (fun last e => match e with answer_click t => Some t | _ => last end)
            clicks None.

(** The scene holds the objects of [initThree] followed by the markers of
    [symbolObjects], of which there are none or three. *)
Definition scene_shape (w : World) : Prop :=
  scene (three w)
  = base_objects ++ List.map (fun s => sprite (sprite_id s)) (symbolObjects (three w))
  /\ (symbolObjects (three w) = []
      \/ exists symbol n, symbolObjects (three w) = markers symbol n).

(** The canvas as a texture repeated 3 by 2 (lines 170-174). *)
Definition sigil_texture : Texture :=
  mkTexture (JElement sigil_canvas) RepeatWrapping RepeatWrapping (3, 2)%Z.

(** The sphere has no texture while no sigil is stored, and the canvas as its
    texture while one is. *)
Definition texture_follows_sigil (w : World) : Prop :=
  (shield.sigil (shield (state w)) = JNull
   /\ map_ (shieldSphere_material (three w)) = None)
  \/ (shield.sigil (shield (state w)) = JElement sigil_canvas
      /\ map_ (shieldSphere_material (three w)) = Some sigil_texture).

(** The opacities the listeners give the sphere, and the glow intensities
    they give the aura. *)
Definition opacity_level (o : R) : Prop := o = 0 \/ o = 0.2 \/ o = 0.3 \/ o = 0.7.

Definition intensity_level (e : R) : Prop := e = 0 \/ e = 0.5 \/ e = 1.

Definition visuals_ok (w : World) : Prop :=
  scene_shape w
  /\ texture_follows_sigil w
  /\ opacity_level (opacity (shieldSphere_material (three w)))
  /\ intensity_level (aura_emissiveIntensity (three w)).

(** A stroke drawn by [generateSigil]. *)
Definition cyan_stroke (s : Stroke) : Prop :=
  stroke_style s = "#00ffff"%string /\ stroke_width s = 2%Z.

Definition canvas_ok (m : Markup) (w : World) : Prop :=
  width (canvas (document w)) = canvas_width m
  /\ height (canvas (document w)) = canvas_height m
  /\ (List.length (drawn (canvas (document w))) <= 1)%nat
  /\ Forall cyan_stroke (drawn (canvas (document w))).

(** A Basic Latin letter, capital or small. *)
Definition is_letter (c : Z) : bool :=
  ((65 <=? c) && (c <=? 90) || (97 <=? c) && (c <=? 122))%Z.


(** ** Sounds (lines 19-55) and the animation frame (lines 115-132) *)

(** The decoded buffers of [transition_sound.mp3] and [activation_sound.mp3]. *)
Inductive Sound := transition_sound | activation_sound.

Record Audio := mkAudio {
  transitionSoundBuffer : option Sound;      (* undefined until loaded *)
  activationSoundBuffer : option Sound;
  started : list Sound                       (* the sources started, in order *)
}.

(** Lines 30-36. *)
Definition playSound (buffer : option Sound) (a : Audio) : Audio :=
  match buffer with
  | None => a
  | Some b => mkAudio (transitionSoundBuffer a) (activationSoundBuffer a) (started a ++ [b])
  end.

(** Where the listener of the window's [load] event stands (lines 38-45):
    awaiting the first [loadSound], awaiting the second, or over (both
    loaded, or an exception caught). *)
Inductive Loader := awaiting_transition | awaiting_activation | load_over.

(** The pending [loadSound] settles: with a buffer ([ok]) or by throwing. *)
Definition settle (ok : bool) (l : Loader) (a : Audio) : Loader * Audio :=
  match l with
  | awaiting_transition =>
      if ok then (awaiting_activation,
                  mkAudio (Some transition_sound) (activationSoundBuffer a) (started a))
      else (load_over, a)
  | awaiting_activation =>
      if ok then (load_over,
                  mkAudio (transitionSoundBuffer a) (Some activation_sound) (started a))
      else (load_over, a)
  | load_over => (l, a)
  end.

(** The sounds of a listener: [switchScreen] plays the transition sound
    (line 54), the activate listener then plays the activation sound
    (line 281). *)
Definition handler_audio (e : event) (a : Audio) : Audio :=
  match e with
  | start_diagnostic_click | answer_click _ | restart_click =>
      playSound (transitionSoundBuffer a) a
  | activate_shield_click =>
      playSound (activationSoundBuffer a) (playSound (transitionSoundBuffer a) a)
  | _ => a
  end.

(** What [animate] writes, none of it read by the listeners. *)
Record Motion := mkMotion {
  starfield_rotation : R * R;                (* x and y *)
  aura_opacity : R;
  rotation_z : nat -> R                      (* of the sprite of each identity *)
}.

(** [obj.rotation.z += 0.01] for one object. *)
Definition turn (rotation : nat -> R) (obj : Sprite) : nat -> R :=
  fun id => if Nat.eqb id (sprite_id obj) then rotation id + 0.01 else rotation id.

(** Lines 115-132, at the time [now] read from [Date.now()]. *)
Definition animate (now : Z) (w : World) (mo : Motion) : Motion :=
  let rotation := (fst (starfield_rotation mo) + 0.0001,
                   snd (starfield_rotation mo) + 0.0002) in
  let opacity :=
    if Rlt_dec 0 (aura_emissiveIntensity (three w)) then
      let time := IZR now * 0.002 in
      (sin time * 0.1 + 0.3) * aura_emissiveIntensity (three w)
    else aura_opacity mo in
  mkMotion rotation opacity (fold_left turn (symbolObjects (three w)) (rotation_z mo)).

(** The page with its sounds and its animation. *)
Record Page := mkPage {
  world : World;
  motion : Motion;
  audio : Audio;
  loader : Loader
}.

(** The objects as [initThree] creates them: nothing turned, the aura fully
    transparent (line 89). *)
Definition created_motion : Motion := mkMotion (0, 0) 0 (fun _ => 0).

(** The page once loaded.  [initThree] ends with a first call of [animate]
    (line 112), before any listener can run; the aura does not glow yet, so
    that call does not use the time it reads. *)
Definition initial_page (m : Markup) : Page :=
  mkPage (initial_world m)
         (animate 0 (initial_world m) created_motion)
         (mkAudio None None [])
         awaiting_transition.

(** What happens on the page: a click, an animation frame, or the pending
    load of a sound settling. *)
Inductive tick :=
| click (e : event)
| frame (now : Z)
| sound_settled (ok : bool).

Definition clicks_of (ticks : list tick) : list event :=
  flat_map (fun t => match t with click e => [e] | _ => [] end) ticks.

Definition is_frame (t : tick) : bool :=
  match t with frame _ => true | _ => false end.

Section Play.

Variable toUpperCase : jsstring -> jsstring.

Definition step (t : tick) (p : Page) : Page :=
  match t with
  | click e =>
      mkPage (dispatch toUpperCase e (world p)) (motion p)
             (if delivered e (world p) then handler_audio e (audio p) else audio p)
             (loader p)
  | frame now =>
      mkPage (world p) (animate now (world p) (motion p)) (audio p) (loader p)
  | sound_settled ok =>
      mkPage (world p) (motion p)
             (snd (settle ok (loader p) (audio p)))
             (fst (settle ok (loader p) (audio p)))
  end.

Definition play (m : Markup) (ticks : list tick) : Page :=
  fold_left (fun p t => step t p) ticks (initial_page m).

End Play.

(** A sound that is started has its buffer loaded. *)
Definition loaded (a : Audio) (s : Sound) : Prop :=
  match s with
  | transition_sound => transitionSoundBuffer a = Some transition_sound
  | activation_sound => activationSoundBuffer a = Some activation_sound
  end.

(** The number of frames among the ticks. *)
Definition frames_of (ticks : list tick) : nat :=
  List.length (filter is_frame ticks).

(** The buffers hold the sounds they were loaded for, and every sound that
    was started has its buffer loaded. *)
Definition sounds_ok (p : Page) : Prop :=
  (transitionSoundBuffer (audio p) = None
   \/ transitionSoundBuffer (audio p) = Some transition_sound)
  /\ (activationSoundBuffer (audio p) = None
      \/ activationSoundBuffer (audio p) = Some activation_sound)
  /\ Forall (loaded (audio p)) (started (audio p)).

(** Above the identities given out so far, nothing has been rotated. *)
Definition unrotated_above (p : Page) : Prop :=
  forall id, (next_id (three (world p)) <= id)%nat -> rotation_z (motion p) id = 0.

(** * Properties *)

(** ** Strings *)

Lemma dropWhile_all (p : Z -> bool) (s : jsstring) :
  dropWhile p s = [] <-> forallb p s = true.
Proof.
  induction s as [|c s IH]; simpl.
  - tauto.
  - destruct (p c); simpl; [exact IH | split; discriminate].
Qed.

Lemma forallb_rev (p : Z -> bool) (s : jsstring) : forallb p (rev s) = forallb p s.
Proof.
  induction s as [|c s IH]; simpl; [reflexivity|].
  rewrite forallb_app, IH. simpl. rewrite andb_true_r. apply andb_comm.
Qed.

Lemma dropWhile_keeps (p : Z -> bool) (s : jsstring) :
  dropWhile p s <> [] -> forallb p (dropWhile p s) = false.
Proof.
  induction s as [|c s IH]; simpl; [congruence|].
  destruct (p c) eqn:E; [exact IH|]. intros _. simpl. now rewrite E.
Qed.

(** The guard of line 203 holds exactly for the strings made of white space
    only, the empty string among them. *)
Lemma is_blank_iff_whitespace (word : jsstring) :
  is_blank word = true <-> forallb isWhiteSpace word = true.
Proof.
  unfold is_blank, jsstring_eqb, trim.
  destruct word as [|c word]; [simpl; tauto|].
  change (negb (truthy (JString (c :: word)))) with false. rewrite orb_false_l.
  generalize (c :: word). intros s.
  destruct (list_eq_dec Z.eq_dec (rev (dropWhile isWhiteSpace (rev (dropWhile isWhiteSpace s)))) [])
    as [E|E].
  - split; [intros _ | reflexivity].
    apply (f_equal (@rev Z)) in E. rewrite rev_involutive in E.
    change (rev []) with (@nil Z) in E.
    apply dropWhile_all in E. rewrite forallb_rev in E.
    apply dropWhile_all.
    destruct (list_eq_dec Z.eq_dec (dropWhile isWhiteSpace s) []) as [D|D]; [exact D|].
    rewrite (dropWhile_keeps _ _ D) in E. discriminate E.
  - split; [discriminate|]. intros H. exfalso. apply E.
    apply dropWhile_all in H. rewrite H. reflexivity.
Qed.

Lemma is_blank_nonempty (word : jsstring) :
  is_blank word = false -> word <> [].
Proof. intros H ->; discriminate H. Qed.

Lemma asciiUpper_case_mapping : case_mapping asciiUpper.
Proof.
  split.
  - reflexivity.
  - intros [|c s] H; [congruence | discriminate].
Qed.

(** ** Frame lemmas: what the projection leaves alone *)

Lemma state_set_state f w : state (set_state f w) = f (state w).
Proof. reflexivity. Qed.

Lemma document_set_state f w : document (set_state f w) = document w.
Proof. reflexivity. Qed.

Lemma three_set_state f w : three (set_state f w) = three w.
Proof. reflexivity. Qed.

Lemma state_colorStep w : state (colorStep w) = state w.
Proof. unfold colorStep; destruct (truthy _); reflexivity. Qed.

Lemma state_symbolStep w : state (symbolStep w) = state w.
Proof. unfold symbolStep; destruct (truthy _); reflexivity. Qed.

Lemma state_sigilStep w : state (sigilStep w) = state w.
Proof. unfold sigilStep; destruct (truthy _); reflexivity. Qed.

Lemma state_updateShieldVisuals w : state (updateShieldVisuals w) = state w.
Proof.
  unfold updateShieldVisuals, seq_.
  now rewrite state_sigilStep, state_symbolStep, state_colorStep.
Qed.

Lemma document_updateShieldVisuals w : document (updateShieldVisuals w) = document w.
Proof.
  unfold updateShieldVisuals, seq_, sigilStep, symbolStep, colorStep.
  repeat (destruct (truthy _); simpl); reflexivity.
Qed.

Lemma state_checkConstructionComplete w : state (checkConstructionComplete w) = state w.
Proof. unfold checkConstructionComplete; destruct (isComplete _); reflexivity. Qed.

Lemma three_checkConstructionComplete w : three (checkConstructionComplete w) = three w.
Proof. unfold checkConstructionComplete; destruct (isComplete _); reflexivity. Qed.

Lemma disabled_checkConstructionComplete w :
  activate_shield_btn_disabled (document (checkConstructionComplete w))
  = negb (isComplete (choicesMade (state w))).
Proof. unfold checkConstructionComplete; destruct (isComplete _); reflexivity. Qed.

Lemma canvas_checkConstructionComplete w :
  canvas (document (checkConstructionComplete w)) = canvas (document w).
Proof. unfold checkConstructionComplete; destruct (isComplete _); reflexivity. Qed.

Lemma active_checkConstructionComplete w :
  active (document (checkConstructionComplete w)) = active (document w).
Proof. unfold checkConstructionComplete; destruct (isComplete _); reflexivity. Qed.

(** ** The drawing of a path *)

Lemma fold_lineTo_state rest : forall w,
  state (fold_left (fun w p => ctx_path (lineTo p) w) rest w) = state w.
Proof. induction rest as [|p rest IH]; intros w; simpl; [|rewrite IH]; reflexivity. Qed.

Lemma fold_lineTo_three rest : forall w,
  three (fold_left (fun w p => ctx_path (lineTo p) w) rest w) = three w.
Proof. induction rest as [|p rest IH]; intros w; simpl; [|rewrite IH]; reflexivity. Qed.

Lemma fold_lineTo_document rest : forall w,
  document (fold_left (fun w p => ctx_path (lineTo p) w) rest w)
  = mkDocument (active (document w)) (activate_shield_btn_disabled (document w))
      (mkCanvas (width (canvas (document w))) (height (canvas (document w)))
         (drawn (canvas (document w)))
         (mkContext (strokeStyle (ctx (canvas (document w))))
            (lineWidth (ctx (canvas (document w))))
            (shadowColor (ctx (canvas (document w))))
            (shadowBlur (ctx (canvas (document w))))
            (path (ctx (canvas (document w))) ++ List.map lineTo rest))).
Proof.
  induction rest as [|p rest IH]; intros w; simpl.
  - rewrite app_nil_r. destruct w as [s [a b [cw ch dr [ss lw sc sb pa]]] t]; reflexivity.
  - rewrite IH; simpl. now rewrite <- app_assoc.
Qed.

Lemma state_draw_path points p0 rest w : state (draw_path points p0 rest w) = state w.
Proof.
  unfold draw_path, seq_.
  destruct (2 <? List.length points)%nat; simpl; now rewrite fold_lineTo_state.
Qed.

Lemma three_draw_path points p0 rest w : three (draw_path points p0 rest w) = three w.
Proof.
  unfold draw_path, seq_.
  destruct (2 <? List.length points)%nat; simpl; now rewrite fold_lineTo_three.
Qed.

(** After [beginPath], drawing the points [p0 :: rest] leaves exactly the
    commands of [sigil_path] as the one stroke added to the canvas. *)
Lemma drawn_draw_path p0 rest w :
  path (ctx (canvas (document w))) = [] ->
  drawn (canvas (document (draw_path (p0 :: rest) p0 rest w)))
  = drawn (canvas (document w))
    ++ [mkStroke (strokeStyle (ctx (canvas (document w))))
                 (lineWidth (ctx (canvas (document w))))
                 (sigil_path (p0 :: rest))].
Proof.
  intros Hp. unfold draw_path, seq_, sigil_path.
  destruct (2 <? List.length (p0 :: rest))%nat; simpl;
    rewrite fold_lineTo_document; simpl; rewrite Hp; simpl.
  - reflexivity.
  - now rewrite app_nil_r.
Qed.

(** ** The points of a word *)

Lemma map_index_from_length {A B : Type} (f : A -> nat -> B) (l : list A) :
  forall k, List.length (map_index_from f k l) = List.length l.
Proof. induction l as [|a l IH]; intros k; simpl; [|rewrite IH]; reflexivity. Qed.

Lemma map_index_from_nth {A B : Type} (f : A -> nat -> B) (l : list A) :
  forall k i a, nth_error l i = Some a ->
                nth_error (map_index_from f k l) i = Some (f a (k + i)%nat).
Proof.
  induction l as [|b l IH]; intros k i a H.
  - destruct i; discriminate H.
  - destruct i as [|i]; simpl in *.
    + injection H as ->. now rewrite Nat.add_0_r.
    + rewrite (IH (S k) i a H). f_equal. f_equal. lia.
Qed.

Lemma sigil_points_length width height chars :
  List.length (sigil_points width height chars) = List.length chars.
Proof. apply map_index_from_length. Qed.

Lemma sigil_points_nth width height chars i char :
  nth_error chars i = Some char ->
  nth_error (sigil_points width height chars) i
  = Some (sigil_point width height (List.length chars) char i).
Proof. intros H. unfold sigil_points, map_index. now rewrite (map_index_from_nth _ _ 0%nat _ _ H). Qed.

Lemma path_points_lineTo rest : path_points (List.map lineTo rest) = rest.
Proof. induction rest as [|p rest IH]; simpl; [reflexivity | f_equal; exact IH]. Qed.

Lemma path_points_sigil_path points : path_points (sigil_path points) = points.
Proof.
  destruct points as [|p0 rest]; [reflexivity|].
  unfold sigil_path.
  change (path_points (moveTo p0 :: ?l)) with (p0 :: path_points l).
  f_equal. unfold path_points at 1. rewrite flat_map_app.
  change (flat_map _ (List.map lineTo rest)) with (path_points (List.map lineTo rest)).
  rewrite path_points_lineTo.
  destruct (2 <? List.length (p0 :: rest))%nat; simpl; now rewrite app_nil_r.
Qed.

Lemma closed_sigil_path points :
  closed (sigil_path points) = (2 <? List.length points)%nat.
Proof.
  destruct points as [|p0 rest]; [reflexivity|].
  unfold sigil_path, closed.
  destruct (2 <? List.length (p0 :: rest))%nat eqn:E.
  - change (moveTo p0 :: List.map lineTo rest ++ [closePath])
      with ((moveTo p0 :: List.map lineTo rest) ++ [closePath]).
    now rewrite rev_app_distr.
  - rewrite app_nil_r.
    destruct rest as [|p1 [|p2 rest]]; [reflexivity | reflexivity | discriminate E].
Qed.

(** ** [generateSigil] case by case *)

Section GeneratorFacts.

Variable toUpperCase : jsstring -> jsstring.

Lemma generateSigil_blank word w :
  is_blank word = true -> generateSigil toUpperCase word w = prepared w.
Proof. intros H. unfold generateSigil. now rewrite H. Qed.

Lemma generateSigil_drawn word w p0 rest :
  is_blank word = false ->
  sigil_points (width (canvas (document w))) (height (canvas (document w)))
               (toUpperCase word) = p0 :: rest ->
  generateSigil toUpperCase word w
  = (draw_path (p0 :: rest) p0 rest ;;
     set_shield (fun s => shield.mk (shield.color s) (shield.symbol s)
                                    (JElement sigil_canvas)) ;;
     set_choicesMade (fun c => choicesMade.mk (choicesMade.color c)
                                 (choicesMade.symbol c) true) ;;
     updateShieldVisuals ;;
     checkConstructionComplete) (ctx_beginPath (prepared w)).
Proof. intros H E. unfold generateSigil. now rewrite H, E. Qed.

(** A word that is not blank and whose upper-case form has a character is
    drawn. *)
Lemma sigil_points_cons word w :
  toUpperCase word <> [] ->
  exists p0 rest,
    sigil_points (width (canvas (document w))) (height (canvas (document w)))
                 (toUpperCase word) = p0 :: rest.
Proof.
  intros H.
  pose proof (sigil_points_length (width (canvas (document w)))
                (height (canvas (document w))) (toUpperCase word)) as L.
  destruct (sigil_points _ _ _) as [|p0 rest]; [|eauto].
  destruct (toUpperCase word); [congruence | discriminate L].
Qed.

Lemma state_generateSigil_blank word w :
  is_blank word = true -> state (generateSigil toUpperCase word w) = state w.
Proof. intros H. now rewrite generateSigil_blank. Qed.

Lemma state_generateSigil_drawn word w :
  is_blank word = false -> toUpperCase word <> [] ->
  state (generateSigil toUpperCase word w)
  = mkState (currentScreen (state w)) (energyType (state w))
      (shield.mk (shield.color (shield (state w))) (shield.symbol (shield (state w)))
                 (JElement sigil_canvas))
      (choicesMade.mk (choicesMade.color (choicesMade (state w)))
                      (choicesMade.symbol (choicesMade (state w))) true).
Proof.
  intros H N. destruct (sigil_points_cons word w N) as (p0 & rest & E).
  rewrite (generateSigil_drawn word w p0 rest H E). unfold seq_.
  rewrite state_checkConstructionComplete, state_updateShieldVisuals.
  unfold set_choicesMade, set_shield. rewrite !state_set_state.
  now rewrite state_draw_path.
Qed.

Lemma drawn_generateSigil_drawn word w :
  is_blank word = false -> toUpperCase word <> [] ->
  drawn (canvas (document (generateSigil toUpperCase word w)))
  = [mkStroke "#00ffff" 2
       (sigil_path (sigil_points (width (canvas (document w)))
                                 (height (canvas (document w))) (toUpperCase word)))].
Proof.
  intros H N. destruct (sigil_points_cons word w N) as (p0 & rest & E).
  rewrite (generateSigil_drawn word w p0 rest H E). unfold seq_.
  rewrite canvas_checkConstructionComplete, document_updateShieldVisuals.
  unfold set_choicesMade, set_shield. rewrite !document_set_state.
  rewrite drawn_draw_path by reflexivity. now rewrite E.
Qed.

End GeneratorFacts.

(** ** Runs *)

Lemma run_snoc up m clicks e :
  run up m (clicks ++ [e]) = dispatch up e (run up m clicks).
Proof. unfold run. now rewrite fold_left_app. Qed.

(** A property kept by every dispatched click holds after every run. *)
Lemma run_invariant up m (P : World -> Prop) :
  P (initial_world m) ->
  (forall e w, P w -> P (dispatch up e w)) ->
  forall clicks, P (run up m clicks).
Proof.
  intros H0 Hstep clicks. unfold run.
  generalize (initial_world m) H0. induction clicks as [|e clicks IH]; intros w Hw; simpl.
  - exact Hw.
  - apply IH, Hstep, Hw.
Qed.

Lemma state_on_restart w :
  state (on_restart w)
  = mkState (currentScreen (state w)) JNull
            (shield.mk JNull JNull JNull) (choicesMade.mk false false false).
Proof. reflexivity. Qed.

Lemma state_on_color_swatch c w :
  state (on_color_swatch c w)
  = mkState (currentScreen (state w)) (energyType (state w))
      (shield.mk (JNumber c) (shield.symbol (shield (state w)))
                 (shield.sigil (shield (state w))))
      (choicesMade.mk true (choicesMade.symbol (choicesMade (state w)))
                      (choicesMade.sigil (choicesMade (state w)))).
Proof.
  unfold on_color_swatch, seq_.
  now rewrite state_checkConstructionComplete, state_updateShieldVisuals.
Qed.

Lemma state_on_symbol_option s w :
  state (on_symbol_option s w)
  = mkState (currentScreen (state w)) (energyType (state w))
      (shield.mk (shield.color (shield (state w))) (dataset s)
                 (shield.sigil (shield (state w))))
      (choicesMade.mk (choicesMade.color (choicesMade (state w))) true
                      (choicesMade.sigil (choicesMade (state w)))).
Proof.
  unfold on_symbol_option, seq_.
  now rewrite state_checkConstructionComplete, state_updateShieldVisuals.
Qed.

(** No handler writes [state.currentScreen]. *)
Lemma currentScreen_dispatch up e w :
  currentScreen (state (dispatch up e w)) = currentScreen (state w).
Proof.
  destruct e; simpl; try reflexivity.
  - now rewrite state_on_color_swatch.
  - now rewrite state_on_symbol_option.
  - unfold generateSigil.
    destruct (is_blank input); [reflexivity|].
    destruct (sigil_points _ _ _) as [|p0 rest]; [reflexivity|].
    unfold seq_. rewrite state_checkConstructionComplete, state_updateShieldVisuals.
    unfold set_choicesMade, set_shield. rewrite !state_set_state.
    now rewrite state_draw_path.
  - destruct (activate_shield_btn_disabled _); reflexivity.
Qed.

Lemma currentScreen_run up m clicks :
  currentScreen (state (run up m clicks)) = lit "intro".
Proof.
  apply (run_invariant up m (fun w => currentScreen (state w) = lit "intro")).
  - reflexivity.
  - intros e w H. now rewrite currentScreen_dispatch.
Qed.

(** * The claims *)

(** C3: a submission made of white space only (the empty one among them) is
    stopped by the guard of line 203: it draws an empty glyph (no point is on
    the canvas afterwards) and does not set the sigil flag, which keeps its
    value, so a false flag stays false.  The empty string and the string of
    three spaces are two such submissions. *)
Theorem C3_blank_submission_empty_glyph :
  forall (toUpperCase : jsstring -> jsstring) (w : World),
    let made w := choicesMade.sigil (choicesMade (state w)) in
    (forall word, forallb isWhiteSpace word = true ->
       is_blank word = true
       /\ glyph (generateSigil toUpperCase word w) = []
       /\ made (generateSigil toUpperCase word w) = made w)
    /\ glyph (generateSigil toUpperCase (lit "") w) = []
    /\ glyph (generateSigil toUpperCase (lit "   ") w) = []
    /\ (made w = false ->
        made (generateSigil toUpperCase (lit "") w) = false
        /\ made (generateSigil toUpperCase (lit "   ") w) = false).
Proof.
  intros up w made.
  assert (G : forall word, forallb isWhiteSpace word = true ->
            is_blank word = true
            /\ glyph (generateSigil up word w) = []
            /\ made (generateSigil up word w) = made w).
  { intros word H. apply is_blank_iff_whitespace in H.
    rewrite (generateSigil_blank up word w H). repeat split. exact H. }
  split; [exact G|].
  destruct (G (lit "") eq_refl) as (_ & G0 & F0), (G (lit "   ") eq_refl) as (_ & G3 & F3).
  repeat split; try assumption; intros; congruence.
Qed.

(** C8: the restart click is one step of a run; the world right after it has
    the intro screen as the only active screen, no energy type, the three
    choice values null and the three flags false (the [state] object is the
    one the program starts with), and the activate button disabled.  The
    worlds observable by other handlers are the worlds between clicks, so none
    of them is a partly reset one. *)
Theorem C8_restart_is_one_step :
  forall (toUpperCase : jsstring -> jsstring) (m : Markup) (clicks : list event),
    let before := run toUpperCase m clicks in
    let after := run toUpperCase m (clicks ++ [restart_click]) in
    after = on_restart before
    /\ active (document after) = [intro_screen]
    /\ currentScreen (state after) = lit "intro"
    /\ energyType (state after) = JNull
    /\ shield (state after) = shield.mk JNull JNull JNull
    /\ choicesMade (state after) = choicesMade.mk false false false
    /\ state after = initial_state
    /\ isComplete (choicesMade (state after)) = false
    /\ activate_shield_btn_disabled (document after) = true.
Proof.
  intros up m clicks before after.
  assert (E : after = on_restart before) by (unfold after; now rewrite run_snoc).
  pose proof (currentScreen_run up m clicks) as C. fold before in C.
  rewrite E. repeat split; try reflexivity.
  - exact C.
  - rewrite state_on_restart, C. reflexivity.
Qed.

(** C10: a blank or whitespace-only submission leaves the [state] object as
    it was: the three stored values and the three flags are unchanged, hence
    so is completeness; the scene and the activate button are unchanged too.
    In particular, when the world it runs in is the one left by a submission
    that was drawn, the sigil flag is still true and the stored sigil is
    still the canvas element, not null. *)
Theorem C10_blank_submission_keeps_state :
  forall (toUpperCase : jsstring -> jsstring) (word : jsstring) (w : World),
    is_blank word = true ->
    let after := generateSigil toUpperCase word w in
    state after = state w
    /\ shield (state after) = shield (state w)
    /\ choicesMade (state after) = choicesMade (state w)
    /\ isComplete (choicesMade (state after)) = isComplete (choicesMade (state w))
    /\ three after = three w
    /\ activate_shield_btn_disabled (document after)
       = activate_shield_btn_disabled (document w)
    /\ (forall word0 w0,
          is_blank word0 = false -> toUpperCase word0 <> [] ->
          w = generateSigil toUpperCase word0 w0 ->
          choicesMade.sigil (choicesMade (state after)) = true
          /\ shield.sigil (shield (state after)) = JElement sigil_canvas
          /\ is_null (shield.sigil (shield (state after))) = false).
Proof.
  intros up word w H after.
  assert (E : after = prepared w) by apply (generateSigil_blank up word w H).
  assert (S : state (prepared w) = state w) by reflexivity.
  rewrite E, S.
  do 6 (split; [reflexivity|]).
  intros word0 w0 H0 N Hw.
  rewrite Hw, state_generateSigil_drawn by assumption.
  repeat split.
Qed.

Lemma C10_blank_resubmission_witness :
  state (generateSigil asciiUpper (lit "  ")
           (generateSigil asciiUpper (lit "A") (initial_world example_markup)))
  = state (generateSigil asciiUpper (lit "A") (initial_world example_markup))
  /\ choicesMade.sigil (choicesMade (state
       (generateSigil asciiUpper (lit "  ")
          (generateSigil asciiUpper (lit "A") (initial_world example_markup))))) = true
  /\ shield.sigil (shield (state
       (generateSigil asciiUpper (lit "  ")
          (generateSigil asciiUpper (lit "A") (initial_world example_markup)))))
     = JElement sigil_canvas.
Proof.
  destruct (@C10_blank_submission_keeps_state asciiUpper (lit "  ")
              (generateSigil asciiUpper (lit "A") (initial_world example_markup))
              eq_refl) as (S & _ & _ & _ & _ & _ & R).
  destruct (R (lit "A") (initial_world example_markup) eq_refl
              ltac:(discriminate) eq_refl) as (F & V & _).
  split; [exact S | split; [exact F | exact V]].
Defined.

Lemma basic_latin_AB : basic_latin (lit "AB").
Proof. repeat constructor; simpl; lia. Qed.

Lemma basic_latin_ABC : basic_latin (lit "ABC").
Proof. repeat constructor; simpl; lia. Qed.

(** C6: a submission that is not blank puts one point per character of the
    upper-cased word on the canvas (one per character of the word itself
    when it is Basic Latin), in order: one stroke that moves to the first
    point and draws a segment to each next one, closed back to the first
    point exactly when there are more than two points.  A word of one
    character gives one point and no segment; [AB] gives two points and an
    open path; [ABC] gives three points and a closed path. *)
Theorem C6_one_point_per_character :
  forall (toUpperCase : jsstring -> jsstring),
    case_mapping toUpperCase ->
    (forall word w,
       is_blank word = false ->
       let chars := toUpperCase word in
       let after := generateSigil toUpperCase word w in
       List.length (glyph after) = List.length chars
       /\ glyph after = sigil_points (width (canvas (document w)))
                                     (height (canvas (document w))) chars
       /\ (exists p0 rest,
             glyph after = p0 :: rest
             /\ paths after
                = [moveTo p0 :: List.map lineTo rest
                   ++ (if (2 <? List.length chars)%nat then [closePath] else [])])
       /\ (forall cmds, In cmds (paths after) ->
             closed cmds = true <-> (2 < List.length chars)%nat)
       /\ (List.length chars = 1%nat ->
             exists p, glyph after = [p] /\ paths after = [[moveTo p]])
       /\ (basic_latin word -> List.length (glyph after) = List.length word))
    /\ (forall w, exists p q,
          glyph (generateSigil toUpperCase (lit "AB") w) = [p; q]
          /\ paths (generateSigil toUpperCase (lit "AB") w) = [[moveTo p; lineTo q]])
    /\ (forall w, exists p q r,
          glyph (generateSigil toUpperCase (lit "ABC") w) = [p; q; r]
          /\ paths (generateSigil toUpperCase (lit "ABC") w)
             = [[moveTo p; lineTo q; lineTo r; closePath]]).
Proof.
  intros up [Hlatin Hne].
  assert (G : forall word w, is_blank word = false ->
            glyph (generateSigil up word w)
            = sigil_points (width (canvas (document w))) (height (canvas (document w)))
                           (up word)
            /\ paths (generateSigil up word w)
               = [sigil_path (sigil_points (width (canvas (document w)))
                                (height (canvas (document w))) (up word))]).
  { intros word w H.
    assert (N : up word <> []) by (apply Hne, is_blank_nonempty, H).
    unfold glyph, paths. rewrite (drawn_generateSigil_drawn up word w H N). simpl.
    now rewrite app_nil_r, path_points_sigil_path. }
  split; [|split].
  - intros word w H chars after.
    destruct (G word w H) as [Gg Gp]. fold chars after in Gg, Gp.
    pose proof (sigil_points_length (width (canvas (document w)))
                  (height (canvas (document w))) chars) as L.
    rewrite Gg, Gp.
    destruct (sigil_points _ _ chars) as [|p0 rest] eqn:E.
    { exfalso. apply (Hne word); [apply is_blank_nonempty, H|].
      fold chars. destruct chars; [reflexivity | discriminate L]. }
    split; [exact L|]. split; [reflexivity|]. split; [|split; [|split]].
    + exists p0, rest. split; [reflexivity|]. unfold sigil_path. now rewrite L.
    + intros cmds [<-|[]]. rewrite closed_sigil_path, L. apply Nat.ltb_lt.
    + intros L1. rewrite L1 in L. destruct rest; [|discriminate L].
      exists p0. split; reflexivity.
    + intros BL. rewrite L. unfold chars. rewrite (Hlatin word BL). apply length_map.
  - intros w. destruct (G (lit "AB") w eq_refl) as [Gg Gp]. rewrite Gg, Gp.
    rewrite (Hlatin _ basic_latin_AB). do 2 eexists. split; reflexivity.
  - intros w. destruct (G (lit "ABC") w eq_refl) as [Gg Gp]. rewrite Gg, Gp.
    rewrite (Hlatin _ basic_latin_ABC). do 3 eexists. split; reflexivity.
Qed.

Lemma C6_word_AB_witness :
  List.length (glyph (generateSigil asciiUpper (lit "ab") (initial_world example_markup)))
  = 2%nat
  /\ exists p q,
       paths (generateSigil asciiUpper (lit "AB") (initial_world example_markup))
       = [[moveTo p; lineTo q]].
Proof.
  destruct (@C6_one_point_per_character asciiUpper asciiUpper_case_mapping)
    as (Hall & HAB & _).
  split.
  - exact (proj1 (Hall (lit "ab") (initial_world example_markup) eq_refl)).
  - destruct (HAB (initial_world example_markup)) as (p & q & _ & Hp).
    exists p, q. exact Hp.
Defined.

Lemma sharpUpper_case_mapping : case_mapping sharpUpper.
Proof.
  split.
  - intros s H. unfold sharpUpper. induction H as [|c s Hc _ IH]; [reflexivity|].
    cbn [flat_map List.map]. rewrite IH. unfold upperUnits.
    destruct (Z.eqb_spec c 223) as [E|_]; [lia | reflexivity].
  - intros [|c s] H; [congruence|]. unfold sharpUpper. cbn [flat_map].
    unfold upperUnits. destruct (c =? 223)%Z; discriminate.
Qed.

(** The sharp s is one character, not blank, and its upper-case form has two:
    with a host that upper-cases it to [SS] the glyph of this one-character
    submission has two points joined by a segment, so the points are not
    counted by the characters of the submission. *)
Lemma C6_sharp_s_counterexample :
  case_mapping sharpUpper
  /\ is_blank [223%Z] = false
  /\ List.length (glyph (generateSigil sharpUpper [223%Z] (initial_world example_markup)))
     = 2%nat
  /\ (exists p q,
        paths (generateSigil sharpUpper [223%Z] (initial_world example_markup))
        = [[moveTo p; lineTo q]])
  /\ ~ (forall (toUpperCase : jsstring -> jsstring),
          case_mapping toUpperCase ->
          forall word w,
            is_blank word = false ->
            List.length (glyph (generateSigil toUpperCase word w)) = List.length word).
Proof.
  assert (G : glyph (generateSigil sharpUpper [223%Z] (initial_world example_markup))
              = sigil_points 300 150 [83; 83]%Z).
  { unfold glyph.
    rewrite (drawn_generateSigil_drawn sharpUpper [223%Z] (initial_world example_markup)
               eq_refl ltac:(discriminate)).
    cbn [flat_map stroke_path]. rewrite app_nil_r, path_points_sigil_path. reflexivity. }
  split; [exact sharpUpper_case_mapping|]. split; [reflexivity|].
  split; [now rewrite G|]. split.
  - do 2 eexists. unfold paths.
    rewrite (drawn_generateSigil_drawn sharpUpper [223%Z] (initial_world example_markup)
               eq_refl ltac:(discriminate)).
    reflexivity.
  - intros H.
    specialize (H sharpUpper sharpUpper_case_mapping [223%Z]
                  (initial_world example_markup) eq_refl).
    rewrite G in H. discriminate H.
Qed.

(** ** The effect of a click on the [state] object and on the button *)

Section DispatchFacts.

Variable toUpperCase : jsstring -> jsstring.

Lemma generateSigil_not_drawn word w :
  is_drawn toUpperCase word = false ->
  state (generateSigil toUpperCase word w) = state w
  /\ three (generateSigil toUpperCase word w) = three w
  /\ activate_shield_btn_disabled (document (generateSigil toUpperCase word w))
     = activate_shield_btn_disabled (document w)
  /\ active (document (generateSigil toUpperCase word w)) = active (document w).
Proof.
  unfold is_drawn, generateSigil. intros H.
  destruct (is_blank word); [repeat split|].
  destruct (toUpperCase word); [repeat split | discriminate H].
Qed.

Lemma generateSigil_is_drawn word w :
  is_drawn toUpperCase word = true ->
  state (generateSigil toUpperCase word w) = with_sigil (state w)
  /\ activate_shield_btn_disabled (document (generateSigil toUpperCase word w))
     = negb (isComplete (choicesMade (with_sigil (state w))))
  /\ active (document (generateSigil toUpperCase word w)) = active (document w).
Proof.
  unfold is_drawn. intros H. apply andb_prop in H as [B N].
  apply negb_true_iff in B.
  assert (N' : toUpperCase word <> []) by (destruct (toUpperCase word); congruence).
  destruct (sigil_points_cons toUpperCase word w N') as (p0 & rest & E).
  pose proof (state_generateSigil_drawn toUpperCase word w B N') as S.
  split; [exact S|].
  rewrite (generateSigil_drawn toUpperCase word w p0 rest B E). unfold seq_. split.
  - rewrite disabled_checkConstructionComplete, state_updateShieldVisuals.
    unfold set_choicesMade, set_shield. rewrite !state_set_state.
    now rewrite state_draw_path.
  - rewrite active_checkConstructionComplete, document_updateShieldVisuals.
    unfold set_choicesMade, set_shield. rewrite !document_set_state.
    unfold draw_path, seq_.
    destruct (2 <? List.length (p0 :: rest))%nat; simpl;
      now rewrite fold_lineTo_document.
Qed.

(** With a case mapping, the drawn submissions are the ones that are not
    blank. *)
Lemma is_drawn_not_blank word :
  case_mapping toUpperCase -> is_drawn toUpperCase word = negb (is_blank word).
Proof.
  intros [_ Hne]. unfold is_drawn.
  destruct (is_blank word) eqn:B; [reflexivity|]. simpl.
  specialize (Hne word (is_blank_nonempty word B)).
  destruct (toUpperCase word); congruence.
Qed.

(** The flags after a click, from the flags before it. *)
Lemma flags_dispatch e w :
  let before := choicesMade (state w) in
  choicesMade (state (dispatch toUpperCase e w))
  = if is_restart e then choicesMade.mk false false false
    else choicesMade.mk (choicesMade.color before || sets_color e)
                        (choicesMade.symbol before || sets_symbol e)
                        (choicesMade.sigil before || drawn_click toUpperCase e).
Proof.
  destruct (choicesMade (state w)) as [c s g] eqn:E.
  destruct e; simpl; rewrite ?orb_false_r, ?orb_true_r; try exact E.
  - rewrite state_on_color_swatch, E. reflexivity.
  - rewrite state_on_symbol_option, E. reflexivity.
  - destruct (is_drawn toUpperCase input) eqn:D.
    + destruct (generateSigil_is_drawn input w D) as (S & _). rewrite S. simpl.
      rewrite E, orb_true_r. reflexivity.
    + destruct (generateSigil_not_drawn input w D) as (S & _). rewrite S, E.
      now rewrite orb_false_r.
  - destruct (activate_shield_btn_disabled _); simpl; exact E.
  - reflexivity.
Qed.

Lemma flags_match_values_dispatch e w :
  flags_match_values w -> flags_match_values (dispatch toUpperCase e w).
Proof.
  unfold flags_match_values. intros (C & S & G).
  destruct e; simpl; try (repeat split; assumption).
  - rewrite state_on_color_swatch. simpl. auto.
  - rewrite state_on_symbol_option. simpl. destruct dataset_symbol; auto.
  - destruct (is_drawn toUpperCase input) eqn:D.
    + destruct (generateSigil_is_drawn input w D) as (E & _). rewrite E. simpl. auto.
    + destruct (generateSigil_not_drawn input w D) as (E & _). rewrite E. auto.
  - destruct (activate_shield_btn_disabled _); simpl; auto.
Qed.

Lemma button_reports_dispatch e w :
  button_reports w -> button_reports (dispatch toUpperCase e w).
Proof.
  unfold button_reports. intros B.
  destruct e; simpl; try exact B.
  - unfold on_color_swatch, seq_.
    now rewrite disabled_checkConstructionComplete, state_checkConstructionComplete.
  - unfold on_symbol_option, seq_.
    now rewrite disabled_checkConstructionComplete, state_checkConstructionComplete.
  - destruct (is_drawn toUpperCase input) eqn:D.
    + destruct (generateSigil_is_drawn input w D) as (E & F & _). now rewrite E, F.
    + destruct (generateSigil_not_drawn input w D) as (E & _ & F & _). now rewrite E, F.
  - destruct (activate_shield_btn_disabled (document w)) eqn:A; simpl; rewrite ?A; exact B.
  - reflexivity.
Qed.

End DispatchFacts.

(** ** Flags along a run *)

Lemma existsb_snoc {A : Type} (f : A -> bool) (l : list A) (a : A) :
  existsb f (l ++ [a]) = existsb f l || f a.
Proof. rewrite existsb_app. simpl. now rewrite orb_false_r. Qed.

Lemma existsb_same {A : Type} (f g : A -> bool) (l : list A) :
  (forall a, f a = g a) -> existsb f l = existsb g l.
Proof. intros H. induction l as [|a l IH]; simpl; [|rewrite H, IH]; reflexivity. Qed.

Lemma flags_fold up clicks : forall recent w,
  choicesMade (state w)
  = choicesMade.mk (existsb sets_color recent) (existsb sets_symbol recent)
                   (existsb (drawn_click up) recent) ->
  let recent' := fold_left (fun recent e => if is_restart e then [] else recent ++ [e])
                           clicks recent in
  choicesMade (state (fold_left (fun w e => dispatch up e w) clicks w))
  = choicesMade.mk (existsb sets_color recent') (existsb sets_symbol recent')
                   (existsb (drawn_click up) recent').
Proof.
  induction clicks as [|e clicks IH]; intros recent w H; simpl.
  - exact H.
  - apply IH. rewrite flags_dispatch, H. simpl.
    destruct (is_restart e); [reflexivity|].
    now rewrite !existsb_snoc.
Qed.

Lemma flags_run up m clicks :
  choicesMade (state (run up m clicks))
  = choicesMade.mk (existsb sets_color (since_reset clicks))
                   (existsb sets_symbol (since_reset clicks))
                   (existsb (drawn_click up) (since_reset clicks)).
Proof. apply (flags_fold up clicks [] (initial_world m)). reflexivity. Qed.

Lemma drawn_click_sets_sigil up e :
  case_mapping up -> drawn_click up e = sets_sigil e.
Proof. intros H. destruct e; try reflexivity. apply is_drawn_not_blank, H. Qed.

Lemma flags_match_values_run up m clicks : flags_match_values (run up m clicks).
Proof.
  apply run_invariant.
  - repeat split.
  - intros e w. apply flags_match_values_dispatch.
Qed.

Lemma button_reports_run up m clicks :
  activate_initially_disabled m = true -> button_reports (run up m clicks).
Proof.
  intros H. apply run_invariant.
  - unfold button_reports. simpl. exact H.
  - intros e w. apply button_reports_dispatch.
Qed.

Lemma not_null_iff (b : bool) (v : jsval) :
  b = negb (is_null v) -> (b = true <-> v <> JNull).
Proof.
  intros ->. destruct v; simpl; split; intros H; try congruence; try discriminate.
Qed.

(** C1: after every sequence of clicks, each flag of [choicesMade] is true
    exactly when the matching value of [shield] is not null; completeness is
    the conjunction of the three flags, and it is what
    [checkConstructionComplete] reports through the activate button, which
    (on a page where the button starts disabled) is enabled exactly when
    construction is complete.  A flag is true exactly when its choice was
    made after the last restart: a colour click, a symbol click, and (for a
    host whose [toUpperCase] is a case mapping) a sigil submission that is not
    blank. *)
Theorem C1_flags_track_choices :
  forall (toUpperCase : jsstring -> jsstring) (m : Markup) (clicks : list event),
    let w := run toUpperCase m clicks in
    let made := choicesMade (state w) in
    let recent := since_reset clicks in
    (choicesMade.color made = true <-> shield.color (shield (state w)) <> JNull)
    /\ (choicesMade.symbol made = true <-> shield.symbol (shield (state w)) <> JNull)
    /\ (choicesMade.sigil made = true <-> shield.sigil (shield (state w)) <> JNull)
    /\ (isComplete made = true <->
        choicesMade.color made = true /\ choicesMade.symbol made = true
        /\ choicesMade.sigil made = true)
    /\ (activate_shield_btn_disabled (document (checkConstructionComplete w)) = false
        <-> isComplete made = true)
    /\ (activate_initially_disabled m = true ->
        (activate_shield_btn_disabled (document w) = false <-> isComplete made = true))
    /\ (choicesMade.color made = true <-> existsb sets_color recent = true)
    /\ (choicesMade.symbol made = true <-> existsb sets_symbol recent = true)
    /\ (case_mapping toUpperCase ->
        (choicesMade.sigil made = true <-> existsb sets_sigil recent = true)
        /\ (isComplete made = true <->
            existsb sets_color recent = true /\ existsb sets_symbol recent = true
            /\ existsb sets_sigil recent = true)).
Proof.
  intros up m clicks w made recent.
  destruct (flags_match_values_run up m clicks) as (Vc & Vs & Vg).
  pose proof (flags_run up m clicks) as F. fold w made recent in F.
  assert (A : isComplete made = true <->
              choicesMade.color made = true /\ choicesMade.symbol made = true
              /\ choicesMade.sigil made = true).
  { unfold isComplete. rewrite !andb_true_iff. tauto. }
  split; [apply not_null_iff, Vc|].
  split; [apply not_null_iff, Vs|].
  split; [apply not_null_iff, Vg|].
  split; [exact A|].
  split.
  { rewrite disabled_checkConstructionComplete. fold made.
    destruct (isComplete made); simpl; split; congruence. }
  split.
  { intros H. pose proof (button_reports_run up m clicks H) as B.
    unfold button_reports in B. fold w made in B. rewrite B.
    destruct (isComplete made); simpl; split; congruence. }
  rewrite F in *. simpl in *.
  split; [tauto|]. split; [tauto|].
  intros CM. rewrite (existsb_same _ _ recent (fun e => drawn_click_sets_sigil up e CM)) in *.
  tauto.
Qed.

Lemma C1_flags_after_three_choices_witness :
  isComplete (choicesMade (state
    (run asciiUpper example_markup
       [start_diagnostic_click; answer_click (Some (lit "fire"));
        color_swatch_click (Num 255); symbol_option_click (Some (lit "flame.png"));
        generate_sigil_click (lit "SHIELD")]))) = true
  /\ activate_shield_btn_disabled (document
       (run asciiUpper example_markup
          [start_diagnostic_click; answer_click (Some (lit "fire"));
           color_swatch_click (Num 255); symbol_option_click (Some (lit "flame.png"));
           generate_sigil_click (lit "SHIELD")])) = false.
Proof.
  destruct (@C1_flags_track_choices asciiUpper example_markup
              [start_diagnostic_click; answer_click (Some (lit "fire"));
               color_swatch_click (Num 255); symbol_option_click (Some (lit "flame.png"));
               generate_sigil_click (lit "SHIELD")])
    as (_ & _ & _ & _ & _ & B & _ & _ & T).
  destruct (T asciiUpper_case_mapping) as (_ & C).
  assert (I : isComplete (choicesMade (state
    (run asciiUpper example_markup
       [start_diagnostic_click; answer_click (Some (lit "fire"));
        color_swatch_click (Num 255); symbol_option_click (Some (lit "flame.png"));
        generate_sigil_click (lit "SHIELD")]))) = true).
  { apply C. repeat split. }
  split; [exact I | apply (B eq_refl), I].
Defined.

(** The listener of the activate button has no guard of its own. *)
Lemma on_activate_shield_unguarded w :
  active (document (on_activate_shield w)) = [activation_screen]
  /\ state (on_activate_shield w) = state w.
Proof. split; reflexivity. Qed.

(** C4: on a page where the activate button starts disabled, after every
    sequence of clicks in which a flag is still false the button is disabled,
    so a click on it reaches no listener: the world, and with it the active
    screen (construction, when it was), is unchanged.  When the three flags
    are true the click is delivered and the activation screen becomes the
    active one. *)
Theorem C4_activate_needs_complete_choices :
  forall (toUpperCase : jsstring -> jsstring) (m : Markup) (clicks : list event),
    activate_initially_disabled m = true ->
    let w := run toUpperCase m clicks in
    let made := choicesMade (state w) in
    ((choicesMade.color made = false \/ choicesMade.symbol made = false
      \/ choicesMade.sigil made = false) ->
     activate_shield_btn_disabled (document w) = true
     /\ dispatch toUpperCase activate_shield_click w = w
     /\ run toUpperCase m (clicks ++ [activate_shield_click]) = w
     /\ (active (document w) = [construction_screen] ->
         active (document (dispatch toUpperCase activate_shield_click w))
         = [construction_screen]))
    /\ (choicesMade.color made = true /\ choicesMade.symbol made = true
        /\ choicesMade.sigil made = true ->
        active (document (dispatch toUpperCase activate_shield_click w))
        = [activation_screen]).
Proof.
  intros up m clicks H w made.
  pose proof (button_reports_run up m clicks H) as B.
  unfold button_reports in B. fold w made in B.
  split.
  - intros F.
    assert (D : activate_shield_btn_disabled (document w) = true).
    { rewrite B. unfold isComplete.
      destruct F as [-> | [-> | ->]]; rewrite ?andb_false_r; reflexivity. }
    assert (E : dispatch up activate_shield_click w = w) by (simpl; now rewrite D).
    split; [exact D|]. split; [exact E|]. split.
    + rewrite run_snoc. exact E.
    + intros S. now rewrite E.
  - intros (C & S & G). simpl. rewrite B. unfold isComplete. rewrite C, S, G.
    reflexivity.
Qed.

Lemma C4_activate_after_color_only_witness :
  dispatch asciiUpper activate_shield_click
    (run asciiUpper example_markup
       [start_diagnostic_click; answer_click (Some (lit "fire"));
        color_swatch_click (Num 255)])
  = run asciiUpper example_markup
      [start_diagnostic_click; answer_click (Some (lit "fire"));
       color_swatch_click (Num 255)]
  /\ active (document
       (dispatch asciiUpper activate_shield_click
          (run asciiUpper example_markup
             [start_diagnostic_click; answer_click (Some (lit "fire"));
              color_swatch_click (Num 255)]))) = [construction_screen].
Proof.
  destruct (@C4_activate_needs_complete_choices asciiUpper example_markup
              [start_diagnostic_click; answer_click (Some (lit "fire"));
               color_swatch_click (Num 255)] eq_refl) as (R & _).
  destruct (R (or_intror (or_introl eq_refl))) as (_ & E & _ & S).
  split; [exact E | exact (S eq_refl)].
Defined.

(** ** The projection of the colour and of the sigil *)

Lemma material_symbolStep w :
  shieldSphere_material (three (symbolStep w)) = shieldSphere_material (three w).
Proof. unfold symbolStep. destruct (truthy _); reflexivity. Qed.

Lemma opacity_updateShieldVisuals w :
  truthy (shield.sigil (shield (state w))) = true ->
  opacity (shieldSphere_material (three (updateShieldVisuals w)))
  = Rmax (opacity (shieldSphere_material (three (colorStep w)))) 0.3.
Proof.
  intros H. unfold updateShieldVisuals, seq_, sigilStep.
  rewrite state_symbolStep, state_colorStep, H. simpl.
  now rewrite material_symbolStep.
Qed.

Lemma opacity_colorStep w :
  truthy (shield.color (shield (state w))) = true ->
  opacity (shieldSphere_material (three (colorStep w))) = 0.2.
Proof. intros H. unfold colorStep. now rewrite H. Qed.

(** C5: with a sigil present, the opacity of the base layer after the
    projection is the larger of the opacity left by the colour step and the
    floor 0.3: it is at least 0.3, it is raised to 0.3 when the colour step
    left less (the colour step leaves 0.2 when a colour is present), and it is
    the opacity left by the colour step when that is 0.3 or more. *)
Theorem C5_sigil_opacity_floor :
  forall (w : World),
    truthy (shield.sigil (shield (state w))) = true ->
    let from_color := opacity (shieldSphere_material (three (colorStep w))) in
    let result := opacity (shieldSphere_material (three (updateShieldVisuals w))) in
    result = Rmax from_color 0.3
    /\ 0.3 <= result
    /\ from_color <= result
    /\ (from_color < 0.3 -> result = 0.3)
    /\ (0.3 <= from_color -> result = from_color)
    /\ (truthy (shield.color (shield (state w))) = true ->
        from_color = 0.2 /\ result = 0.3).
Proof.
  intros w H from_color result.
  assert (E : result = Rmax from_color 0.3) by apply (opacity_updateShieldVisuals w H).
  split; [exact E|]. rewrite E.
  split; [apply Rmax_r|]. split; [apply Rmax_l|].
  split; [intros L; apply Rmax_right; lra|].
  split; [intros L; apply Rmax_left; lra|].
  intros C. pose proof (opacity_colorStep w C) as O. fold from_color in O.
  split; [exact O|]. rewrite O. apply Rmax_right. lra.
Qed.

Lemma C5_color_then_sigil_witness :
  opacity (shieldSphere_material (three
    (updateShieldVisuals
       (run asciiUpper example_markup
          [color_swatch_click (Num 255); generate_sigil_click (lit "A")])))) = 0.3.
Proof.
  destruct (C5_sigil_opacity_floor
              (run asciiUpper example_markup
                 [color_swatch_click (Num 255); generate_sigil_click (lit "A")])
              eq_refl) as (_ & _ & _ & _ & _ & C).
  exact (proj2 (C eq_refl)).
Defined.

(** ** The orbit markers *)

Lemma marker_angle (i : nat) : INR i / 3 * PI * 2 = INR i * (2 * PI / 3).
Proof. field. Qed.

Lemma scene_sprites_app a b :
  scene_sprites (a ++ b) = scene_sprites a ++ scene_sprites b.
Proof. apply flat_map_app. Qed.

(** Removing the first sprite of the scene removes its identity from the
    sprites and nothing else. *)
Lemma scene_sprites_remove id children rest :
  scene_sprites children = id :: rest ->
  scene_sprites (scene_remove (sprite id) children) = rest.
Proof.
  induction children as [|o children IH]; intros H; [discriminate H|].
  destruct o; simpl in *; try (apply IH; exact H).
  injection H as E1 E2. subst id0. now rewrite Nat.eqb_refl.
Qed.

Lemma scene_sprites_clear objs : forall children,
  scene_sprites children = List.map sprite_id objs ->
  scene_sprites (fold_left (fun children obj => scene_remove (sprite (sprite_id obj)) children)
                           objs children) = [].
Proof.
  induction objs as [|obj objs IH]; intros children H; simpl.
  - exact H.
  - apply IH. exact (scene_sprites_remove _ _ _ H).
Qed.

Lemma three_symbolStep w :
  truthy (shield.symbol (shield (state w))) = true ->
  let n := next_id (three w) in
  symbolObjects (three (symbolStep w)) = markers (shield.symbol (shield (state w))) n
  /\ scene (three (symbolStep w))
     = scene (clear_symbols (three w)) ++ [sprite n; sprite (n + 1); sprite (n + 2)]
  /\ next_id (three (symbolStep w)) = (n + 3)%nat.
Proof.
  intros H n. unfold symbolStep. rewrite H. simpl. fold n.
  unfold markers, marker, scene_add. rewrite <- !marker_angle.
  rewrite !Nat.add_0_r, <- !app_assoc.
  replace (n + 1)%nat with (S n) by lia.
  replace (n + 2)%nat with (S (S n)) by lia.
  replace (n + 3)%nat with (S (S (S n))) by lia.
  repeat split.
Qed.

Lemma In_scene_sprites id children :
  In (sprite id) children <-> In id (scene_sprites children).
Proof.
  induction children as [|o children IH]; simpl; [tauto|].
  destruct o; simpl; rewrite <- IH; split;
    try (intros [H|H]; [discriminate H | exact H]); try (intros H; right; exact H).
  - intros [H|H]; [left; congruence | right; exact H].
  - intros [H|H]; [left; congruence | right; exact H].
Qed.

Lemma markers_in_scene_same w w' :
  same_markers w w' -> markers_in_scene w -> markers_in_scene w'.
Proof. unfold markers_in_scene. intros (-> & -> & ->). tauto. Qed.

Lemma symbol_has_markers_same w w' :
  same_markers w w' -> shield.symbol (shield (state w')) = shield.symbol (shield (state w)) ->
  symbol_has_markers w -> symbol_has_markers w'.
Proof. unfold symbol_has_markers. intros (_ & -> & _) ->. tauto. Qed.

Lemma same_markers_colorStep w : same_markers w (colorStep w).
Proof. unfold colorStep. destruct (truthy _); repeat split. Qed.

Lemma same_markers_sigilStep w : same_markers w (sigilStep w).
Proof. unfold sigilStep. destruct (truthy _); repeat split. Qed.

Lemma same_markers_trans w1 w2 w3 :
  same_markers w1 w2 -> same_markers w2 w3 -> same_markers w1 w3.
Proof. unfold same_markers. intros (A & B & C) (-> & -> & ->). auto. Qed.

Lemma markers_symbolStep w :
  markers_in_scene w ->
  markers_in_scene (symbolStep w) /\ symbol_has_markers (symbolStep w).
Proof.
  intros (S & F). unfold symbol_has_markers. rewrite state_symbolStep.
  destruct (truthy (shield.symbol (shield (state w)))) eqn:T.
  - destruct (three_symbolStep w T) as (O & C & N). split.
    + unfold markers_in_scene. rewrite O, C, N, scene_sprites_app. simpl.
      rewrite (scene_sprites_clear _ _ S), Nat.add_0_r. split; [reflexivity|].
      repeat constructor; simpl; lia.
    + intros _. eexists. exact O.
  - unfold symbolStep. rewrite T. split; [split; assumption | discriminate].
Qed.

Lemma markers_updateShieldVisuals w :
  markers_in_scene w ->
  markers_in_scene (updateShieldVisuals w) /\ symbol_has_markers (updateShieldVisuals w).
Proof.
  intros M. unfold updateShieldVisuals, seq_.
  pose proof (markers_in_scene_same _ _ (same_markers_colorStep w) M) as M1.
  destruct (markers_symbolStep _ M1) as (M2 & H2).
  split.
  - exact (markers_in_scene_same _ _ (same_markers_sigilStep _) M2).
  - apply (symbol_has_markers_same (symbolStep (colorStep w))).
    + apply same_markers_sigilStep.
    + now rewrite state_sigilStep.
    + exact H2.
Qed.

Lemma markers_checkConstructionComplete w :
  markers_in_scene w /\ symbol_has_markers w ->
  markers_in_scene (checkConstructionComplete w)
  /\ symbol_has_markers (checkConstructionComplete w).
Proof.
  unfold markers_in_scene, symbol_has_markers.
  now rewrite three_checkConstructionComplete, state_checkConstructionComplete.
Qed.

Lemma markers_dispatch up e w :
  markers_in_scene w /\ symbol_has_markers w ->
  markers_in_scene (dispatch up e w) /\ symbol_has_markers (dispatch up e w).
Proof.
  intros (M & H).
  destruct e; simpl.
  - split; [exact M | exact H].
  - split; [exact M | exact H].
  - apply markers_checkConstructionComplete, markers_updateShieldVisuals. exact M.
  - apply markers_checkConstructionComplete, markers_updateShieldVisuals. exact M.
  - destruct (is_drawn up input) eqn:D.
    + unfold is_drawn in D. apply andb_prop in D as [B N].
      apply negb_true_iff in B.
      assert (N' : up input <> []) by (destruct (up input); congruence).
      destruct (sigil_points_cons up input w N') as (p0 & rest & E).
      rewrite (generateSigil_drawn up input w p0 rest B E). unfold seq_.
      apply markers_checkConstructionComplete, markers_updateShieldVisuals.
      unfold markers_in_scene, set_choicesMade, set_shield.
      rewrite !three_set_state, three_draw_path. exact M.
    + destruct (generateSigil_not_drawn up input w D) as (S & T & _).
      unfold markers_in_scene, symbol_has_markers. rewrite S, T. split; assumption.
  - destruct (activate_shield_btn_disabled (document w)); split; assumption.
  - split; [|discriminate].
    destruct M as (S & _). split; simpl; [|constructor].
    apply scene_sprites_clear. exact S.
Qed.

Lemma markers_run up m clicks :
  markers_in_scene (run up m clicks) /\ symbol_has_markers (run up m clicks).
Proof.
  apply (run_invariant up m (fun w => markers_in_scene w /\ symbol_has_markers w)).
  - split; [split; [reflexivity | constructor] | discriminate].
  - intros e w. apply markers_dispatch.
Qed.

Lemma three_updateShieldVisuals_symbol w :
  truthy (shield.symbol (shield (state w))) = true ->
  let n := next_id (three w) in
  symbolObjects (three (updateShieldVisuals w)) = markers (shield.symbol (shield (state w))) n
  /\ scene (three (updateShieldVisuals w))
     = scene (clear_symbols (three w)) ++ [sprite n; sprite (n + 1); sprite (n + 2)]%nat.
Proof.
  intros T n. unfold updateShieldVisuals, seq_.
  destruct (same_markers_sigilStep (symbolStep (colorStep w))) as (-> & -> & _).
  assert (T1 : truthy (shield.symbol (shield (state (colorStep w)))) = true)
    by now rewrite state_colorStep.
  destruct (three_symbolStep _ T1) as (-> & -> & _).
  destruct (same_markers_colorStep w) as (Es & Eo & En).
  rewrite state_colorStep, En. simpl. rewrite Es, Eo. split; reflexivity.
Qed.

(** C7: after every sequence of clicks that leaves a symbol present,
    [symbolObjects] holds exactly three markers, the three sprites of the
    scene: marker [i] sits at [i] times 120 degrees on the circle of radius
    2.2 (see [marker]) and the image of its texture is the chosen symbol.  A
    further symbol click replaces them: the array and the sprites of the
    scene are the three new markers, each with the newly chosen symbol as
    the image of its texture, and no previous marker is left in either. *)
Theorem C7_three_markers_replace_previous :
  forall (toUpperCase : jsstring -> jsstring) (m : Markup) (clicks : list event),
    let w := run toUpperCase m clicks in
    truthy (shield.symbol (shield (state w))) = true ->
    (exists n,
        symbolObjects (three w) = markers (shield.symbol (shield (state w))) n
        /\ scene_sprites (scene (three w)) = [n; n + 1; n + 2]%nat)
    /\ List.length (symbolObjects (three w)) = 3%nat
    /\ (forall data,
          truthy (dataset data) = true ->
          let w' := dispatch toUpperCase (symbol_option_click data) w in
          let n' := next_id (three w) in
          symbolObjects (three w') = markers (dataset data) n'
          /\ scene_sprites (scene (three w')) = [n'; n' + 1; n' + 2]%nat
          /\ (forall old, In old (symbolObjects (three w)) ->
                ~ In old (symbolObjects (three w'))
                /\ ~ In (sprite (sprite_id old)) (scene (three w')))
          /\ (forall s, In s (symbolObjects (three w')) ->
                image (sm_map (sprite_material s)) = dataset data
                /\ sm_transparent (sprite_material s) = true
                /\ scale s = (0.5, 0.5, 0.5)))
    /\ (forall s, In s (symbolObjects (three w)) ->
          image (sm_map (sprite_material s)) = shield.symbol (shield (state w))
          /\ sm_transparent (sprite_material s) = true
          /\ scale s = (0.5, 0.5, 0.5))
    /\ (forall i s, nth_error (symbolObjects (three w)) i = Some s ->
          position s = (cos (INR i * (2 * PI / 3)) * 2.2,
                        sin (INR i * (2 * PI / 3)) * 2.2, 0)).
Proof.
  intros up m clicks w T.
  destruct (markers_run up m clicks) as ((S & F) & H). fold w in S, F, H.
  destruct (H T) as (n & O).
  assert (M : forall symbol k s, In s (markers symbol k) ->
              image (sm_map (sprite_material s)) = symbol
              /\ sm_transparent (sprite_material s) = true
              /\ scale s = (0.5, 0.5, 0.5)).
  { intros symbol k s [<- | [<- | [<- | []]]]; repeat split. }
  split; [|split; [|split; [|split]]].
  - exists n. split; [exact O|]. rewrite S, O. simpl. now rewrite Nat.add_0_r.
  - now rewrite O.
  - intros data Td w' n'.
    assert (E : three w'
                = three (updateShieldVisuals
                    (set_choicesMade
                       (fun c => choicesMade.mk (choicesMade.color c) true (choicesMade.sigil c))
                       (set_shield
                          (fun s => shield.mk (shield.color s) (dataset data) (shield.sigil s))
                          w)))).
    { unfold w'. simpl. unfold on_symbol_option, seq_.
      now rewrite three_checkConstructionComplete. }
    destruct (three_updateShieldVisuals_symbol
                (set_choicesMade
                   (fun c => choicesMade.mk (choicesMade.color c) true (choicesMade.sigil c))
                   (set_shield
                      (fun s => shield.mk (shield.color s) (dataset data) (shield.sigil s))
                      w)) Td) as (O' & C').
    rewrite <- E in O', C'. simpl in O', C'. fold n' in O', C'.
    assert (SS : scene_sprites (scene (three w')) = [n'; n' + 1; n' + 2]%nat).
    { rewrite C', scene_sprites_app. simpl.
      now rewrite (scene_sprites_clear _ _ S). }
    split; [exact O'|]. split; [exact SS|]. split.
    + intros old Hold.
      assert (L : (sprite_id old < n')%nat) by (rewrite Forall_forall in F; apply F, Hold).
      split.
      * rewrite O'. unfold markers. simpl.
        intros [X|[X|[X|[]]]]; rewrite <- X in L; simpl in L; lia.
      * rewrite In_scene_sprites, SS. simpl. lia.
    + intros s Hs. rewrite O' in Hs. exact (M _ _ _ Hs).
  - intros s Hs. rewrite O in Hs. exact (M _ _ _ Hs).
  - intros i s Hs. rewrite O in Hs.
    destruct i as [|[|[|i]]]; cbn [markers nth_error] in Hs;
      try (injection Hs as <-; reflexivity).
    destruct i; discriminate Hs.
Qed.

Lemma C7_one_symbol_click_witness :
  List.length (symbolObjects (three
    (run asciiUpper example_markup [symbol_option_click (Some (lit "sun.png"))]))) = 3%nat
  /\ symbolObjects (three
       (dispatch asciiUpper (symbol_option_click (Some (lit "moon.png")))
          (run asciiUpper example_markup [symbol_option_click (Some (lit "sun.png"))])))
     = markers (JString (lit "moon.png")) 3.
Proof.
  destruct (C7_three_markers_replace_previous asciiUpper example_markup
              [symbol_option_click (Some (lit "sun.png"))] eq_refl) as (_ & L & R & _).
  split; [exact L | exact (proj1 (R (Some (lit "moon.png")) eq_refl))].
Defined.

(** ** The points of the glyph *)

Lemma glyph_generateSigil up word w :
  is_blank word = false -> up word <> [] ->
  glyph (generateSigil up word w)
  = sigil_points (width (canvas (document w))) (height (canvas (document w))) (up word).
Proof.
  intros H N. unfold glyph. rewrite (drawn_generateSigil_drawn up word w H N). simpl.
  now rewrite app_nil_r, path_points_sigil_path.
Qed.

Lemma glyph_nth up word w i char :
  is_blank word = false -> nth_error (up word) i = Some char ->
  nth_error (glyph (generateSigil up word w)) i
  = Some (sigil_point (width (canvas (document w))) (height (canvas (document w)))
            (List.length (up word)) char i).
Proof.
  intros H E.
  assert (N : up word <> []) by (intros N; rewrite N in E; destruct i; discriminate E).
  rewrite (glyph_generateSigil up word w H N). now apply sigil_points_nth.
Qed.

(** The remainder of a division by 10 has at most one digit. *)
Lemma rem_10_bound (a : Z) : (-9 <= Z.rem a 10 <= 9)%Z.
Proof.
  assert (H : (Z.abs (Z.rem a 10) < Z.abs 10)%Z) by (apply Z.rem_bound_abs; lia).
  lia.
Qed.

Lemma radius_factor_bound (a : Z) :
  0.05 <= IZR (Z.rem a 10) / 10 * 0.5 + 0.5 <= 0.95.
Proof.
  destruct (rem_10_bound a) as [L U].
  apply IZR_le in L, U. lra.
Qed.




(** ** The formula of the specification against the code *)

(** The character ['8'] has value [56 - 65 = -9]: its remainder by 10 is
    [-9] for the code and [1] for the specification, the same as for ['B'],
    ten values further. *)
Example remainder_of_a_digit :
  Z.rem (56 - 65) 10 = (-9)%Z /\ ((56 - 65) mod 10 = 1)%Z /\ Z.rem (66 - 65) 10 = 1%Z.
Proof. repeat split. Qed.

(** From ['A'] on, the remainder of the code is the one of the
    specification. *)
Lemma spec_point_from_A width height n char i :
  (65 <= char)%Z ->
  sigil_point width height n char i = spec_point width height n char i.
Proof.
  intros H. unfold sigil_point, spec_point.
  rewrite Z.rem_mod_nonneg by lia.
  f_equal; f_equal; try (f_equal; [f_equal; ring | ring]).
Qed.

(** The remainder of the code against the one of the specification: they
    agree exactly on the values that are not negative and on the multiples
    of 10, and differ by 10 on the others. *)
Lemma rem_against_mod (a : Z) :
  (Z.rem a 10 = (a mod 10)%Z <-> (0 <= a)%Z \/ (a mod 10 = 0)%Z)
  /\ ((a < 0)%Z -> (a mod 10 <> 0)%Z -> Z.rem a 10 = (a mod 10 - 10)%Z).
Proof.
  pose proof (Z.quot_rem' a 10) as Q.
  pose proof (Z.div_mod a 10 ltac:(lia)) as D.
  pose proof (Z.mod_pos_bound a 10 ltac:(lia)) as M.
  destruct (Z_lt_le_dec a 0) as [N|P].
  - pose proof (Z.rem_bound_pos_neg a 10 ltac:(lia) ltac:(lia)) as R.
    split; [split|]; lia.
  - pose proof (Z.rem_bound_pos a 10 P ltac:(lia)) as R.
    split; [split|]; lia.
Qed.

Lemma spec_point_same_remainder width height n char i :
  Z.rem (char - 65) 10 = ((char - 65) mod 10)%Z ->
  sigil_point width height n char i = spec_point width height n char i.
Proof.
  intros H. unfold sigil_point, spec_point. rewrite H.
  f_equal; f_equal; try (f_equal; [f_equal; ring | ring]).
Qed.

(** C2, as the code has it: for a submission that is not blank, the point of
    the character at position [i] of the [n] characters of the upper-cased
    word is the centre of the canvas moved by [(cos angle * radius, sin angle
    * radius)], with [angle = (i / n) * 2 PI], the value of the character its
    code minus 65, and [radius = (width / 2 - 10) * (0.5 + 0.5 * (r / 10))]
    where [r] is the remainder of the value by 10 that takes the sign of the
    value.  [r] is [value mod 10] exactly when the value is not negative or
    is a multiple of 10, and [value mod 10 - 10] otherwise; where [r] is
    [value mod 10] the point is the one of the specification. *)
Theorem C2_point_of_character :
  forall (toUpperCase : jsstring -> jsstring) (word : jsstring) (w : World)
         (i : nat) (char : Z),
    is_blank word = false ->
    nth_error (toUpperCase word) i = Some char ->
    let width := width (canvas (document w)) in
    let height := height (canvas (document w)) in
    let n := List.length (toUpperCase word) in
    let value := (char - 65)%Z in
    let angle := (INR i / INR n) * (2 * PI) in
    let radius := (IZR width / 2 - 10) * (0.5 + 0.5 * (IZR (Z.rem value 10) / 10)) in
    nth_error (glyph (generateSigil toUpperCase word w)) i
    = Some (mkPoint (IZR width / 2 + cos angle * radius)
                    (IZR height / 2 + sin angle * radius))
    /\ (Z.rem value 10 = (value mod 10)%Z <-> (0 <= value)%Z \/ (value mod 10 = 0)%Z)
    /\ ((value < 0)%Z -> (value mod 10 <> 0)%Z -> Z.rem value 10 = (value mod 10 - 10)%Z)
    /\ ((65 <= char)%Z \/ (value mod 10 = 0)%Z ->
        nth_error (glyph (generateSigil toUpperCase word w)) i
        = Some (spec_point width height n char i)).
Proof.
  intros up word w i char B E width height n value angle radius.
  pose proof (glyph_nth up word w i char B E) as G. fold width height n in G.
  destruct (rem_against_mod value) as (A1 & A2).
  split; [|split; [exact A1|split; [exact A2|]]].
  - rewrite G. unfold sigil_point. fold value.
    replace (INR i / INR n * PI * 2) with angle by (unfold angle; ring).
    replace ((IZR width / 2 - 10) * (IZR (Z.rem value 10) / 10 * 0.5 + 0.5))
      with radius by (unfold radius; field).
    reflexivity.
  - intros H. rewrite G. f_equal. apply spec_point_same_remainder. fold value.
    apply A1. destruct H as [H|H]; [left; unfold value; lia | right; exact H].
Qed.

Lemma C2_letter_witness :
  nth_error (glyph (generateSigil asciiUpper (lit "ok") (initial_world example_markup))) 1
  = Some (spec_point 300 150 2 75 1).
Proof.
  destruct (C2_point_of_character asciiUpper (lit "ok") (initial_world example_markup)
              1 75 eq_refl eq_refl) as (_ & _ & _ & S).
  apply S. left. lia.
Defined.

(** The digit [1] has value [49 - 65 = -16]: the code takes the remainder
    [-6] and draws the point at [(178, 75)] on the default canvas, where the
    formula of the specification, with [-16 mod 10 = 4], gives [(248, 75)]. *)
Lemma C2_digit_counterexample :
  glyph (generateSigil asciiUpper (lit "1") (initial_world example_markup))
  = [mkPoint 178 75]
  /\ spec_point 300 150 1 49 0 = mkPoint 248 75
  /\ ~ (forall (toUpperCase : jsstring -> jsstring) (word : jsstring) (w : World)
               (i : nat) (char : Z),
          is_blank word = false ->
          nth_error (toUpperCase word) i = Some char ->
          nth_error (glyph (generateSigil toUpperCase word w)) i
          = Some (spec_point (width (canvas (document w))) (height (canvas (document w)))
                    (List.length (toUpperCase word)) char i)).
Proof.
  assert (A0 : INR 0 / INR 1 * PI * 2 = 0) by (simpl; field).
  assert (A0' : INR 0 / INR 1 * (2 * PI) = 0) by (simpl; field).
  assert (G : glyph (generateSigil asciiUpper (lit "1") (initial_world example_markup))
              = [mkPoint 178 75]).
  { rewrite glyph_generateSigil by (reflexivity || discriminate).
    unfold sigil_points, map_index. simpl. unfold sigil_point.
    rewrite A0, cos_0, sin_0.
    change (Z.rem (upperUnit 49 - 65) 10) with (-6)%Z.
    f_equal. f_equal; lra. }
  assert (S : spec_point 300 150 1 49 0 = mkPoint 248 75).
  { unfold spec_point. simpl List.length. rewrite A0', cos_0, sin_0.
    change ((49 - 65) mod 10)%Z with 4%Z.
    f_equal; lra. }
  split; [exact G|]. split; [exact S|].
  intros H.
  specialize (H asciiUpper (lit "1") (initial_world example_markup) 0%nat 49%Z
                eq_refl eq_refl).
  rewrite G in H.
  change (Some (mkPoint 178 75) = Some (spec_point 300 150 1 49 0)) in H.
  rewrite S in H. injection H as Hx. lra.
Qed.

(** * Further properties of the program *)

(** ** Navigation *)

Lemma active_dispatch up e w :
  active (document (dispatch up e w))
  = match target e with
    | Some s => if delivered e w then [s] else active (document w)
    | None => active (document w)
    end.
Proof.
  destruct e; simpl; try reflexivity.
  - unfold on_color_swatch, seq_.
    now rewrite active_checkConstructionComplete, document_updateShieldVisuals.
  - unfold on_symbol_option, seq_.
    now rewrite active_checkConstructionComplete, document_updateShieldVisuals.
  - destruct (is_drawn up input) eqn:D.
    + now destruct (generateSigil_is_drawn up input w D) as (_ & _ & ->).
    + now destruct (generateSigil_not_drawn up input w D) as (_ & _ & _ & ->).
  - destruct (activate_shield_btn_disabled (document w)); reflexivity.
Qed.

(** X1: [state.currentScreen] is never written: after every sequence of
    clicks it still holds ['intro'], also right after a click that switched
    the active screen. *)
Theorem currentScreen_never_follows_the_screen :
  forall (toUpperCase : jsstring -> jsstring) (m : Markup) (clicks : list event)
         (e : event) (s : Screen),
    let w := run toUpperCase m clicks in
    currentScreen (state w) = lit "intro"
    /\ (target e = Some s -> delivered e w = true ->
        active (document (run toUpperCase m (clicks ++ [e]))) = [s]
        /\ currentScreen (state (run toUpperCase m (clicks ++ [e]))) = lit "intro").
Proof.
  intros up m clicks e s w. split; [apply currentScreen_run|].
  intros T D. split; [|apply currentScreen_run].
  rewrite run_snoc, active_dispatch. fold w. now rewrite T, D.
Qed.

(** X2: only the four navigation clicks change the active screen, and they
    leave exactly their target active; a colour, symbol or sigil click, and a
    click on the disabled activate button, leave the active screens as they
    are.  On a page that starts with one active screen, one screen is active
    after every sequence of clicks. *)
Theorem one_screen_is_active :
  forall (toUpperCase : jsstring -> jsstring) (m : Markup) (clicks : list event)
         (e : event),
    let w := run toUpperCase m clicks in
    (List.length (initially_active m) = 1%nat -> List.length (active (document w)) = 1%nat)
    /\ (forall s, target e = Some s -> delivered e w = true ->
          active (document (dispatch toUpperCase e w)) = [s])
    /\ (target e = None \/ delivered e w = false ->
          active (document (dispatch toUpperCase e w)) = active (document w)).
Proof.
  intros up m clicks e w. split; [|split].
  - intros H.
    apply (run_invariant up m (fun w => List.length (active (document w)) = 1%nat)).
    + exact H.
    + intros e0 w0 H0. rewrite active_dispatch.
      destruct (target e0); [destruct (delivered e0 w0)|]; auto.
  - intros s T D. now rewrite active_dispatch, T, D.
  - intros [T|D]; rewrite active_dispatch.
    + now rewrite T.
    + rewrite D. now destruct (target e).
Qed.

(** ** The energy type *)

Lemma energyType_dispatch up e w :
  energyType (state (dispatch up e w))
  = match e with
    | answer_click t => dataset t
    | restart_click => JNull
    | _ => energyType (state w)
    end.
Proof.
  destruct e; simpl; try reflexivity.
  - now rewrite state_on_color_swatch.
  - now rewrite state_on_symbol_option.
  - destruct (is_drawn up input) eqn:D.
    + now destruct (generateSigil_is_drawn up input w D) as (-> & _).
    + now destruct (generateSigil_not_drawn up input w D) as (-> & _).
  - destruct (activate_shield_btn_disabled (document w)); reflexivity.
Qed.

Lemma energyType_fold up clicks : forall recent w,
  energyType (state w)
  = match last_answer recent with Some t => dataset t | None => JNull end ->
  let recent' := fold_left (fun recent e => if is_restart e then [] else recent ++ [e])
                           clicks recent in
  energyType (state (fold_left (fun w e => dispatch up e w) clicks w))
  = match last_answer recent' with Some t => dataset t | None => JNull end.
Proof.
  induction clicks as [|e clicks IH]; intros recent w H; simpl.
  - exact H.
  - apply IH. rewrite energyType_dispatch.
    destruct e; simpl; try (unfold last_answer; rewrite fold_left_app; simpl; exact H).
    + unfold last_answer. rewrite fold_left_app. reflexivity.
    + reflexivity.
Qed.

(** X3: after every sequence of clicks the energy type is the [data-type] of
    the last answer clicked since the last restart (undefined when that
    button has no such attribute), and null when no answer was clicked since
    then. *)
Theorem energyType_is_the_last_answer :
  forall (toUpperCase : jsstring -> jsstring) (m : Markup) (clicks : list event),
    energyType (state (run toUpperCase m clicks))
    = match last_answer (since_reset clicks) with
      | Some t => dataset t
      | None => JNull
      end.
Proof.
  intros up m clicks. apply (energyType_fold up clicks [] (initial_world m)). reflexivity.
Qed.

(** ** Choices that are stored but not drawn *)

Lemma material_sigilStep_colors w :
  mat_color (shieldSphere_material (three (sigilStep w)))
  = mat_color (shieldSphere_material (three w))
  /\ mat_emissive (shieldSphere_material (three (sigilStep w)))
     = mat_emissive (shieldSphere_material (three w))
  /\ emissiveIntensity (shieldSphere_material (three (sigilStep w)))
     = emissiveIntensity (shieldSphere_material (three w)).
Proof. unfold sigilStep. destruct (truthy _); repeat split. Qed.

(** X4: a colour swatch whose parsed colour is 0 (black) or NaN counts as a
    choice (the value is stored and the colour flag set) but the projection
    skips it: the tint, the glow colour and the glow intensity of the sphere
    stay as they were, and without a stored sigil the whole material does. *)
Theorem falsy_color_is_stored_but_not_shown :
  forall (toUpperCase : jsstring -> jsstring) (c : jsnum) (w : World),
    truthy (JNumber c) = false ->
    let w' := dispatch toUpperCase (color_swatch_click c) w in
    (c = NaN \/ c = Num 0)
    /\ shield.color (shield (state w')) = JNumber c
    /\ choicesMade.color (choicesMade (state w')) = true
    /\ mat_color (shieldSphere_material (three w'))
       = mat_color (shieldSphere_material (three w))
    /\ mat_emissive (shieldSphere_material (three w'))
       = mat_emissive (shieldSphere_material (three w))
    /\ emissiveIntensity (shieldSphere_material (three w'))
       = emissiveIntensity (shieldSphere_material (three w))
    /\ (truthy (shield.sigil (shield (state w))) = false ->
        shieldSphere_material (three w') = shieldSphere_material (three w)).
Proof.
  intros up c w F w'.
  assert (Hc : c = NaN \/ c = Num 0).
  { destruct c as [|z]; [now left|]. right. simpl in F.
    apply negb_false_iff, Z.eqb_eq in F. now subst. }
  split; [exact Hc|].
  assert (S : state w'
              = mkState (currentScreen (state w)) (energyType (state w))
                  (shield.mk (JNumber c) (shield.symbol (shield (state w)))
                             (shield.sigil (shield (state w))))
                  (choicesMade.mk true (choicesMade.symbol (choicesMade (state w)))
                                  (choicesMade.sigil (choicesMade (state w)))))
    by apply state_on_color_swatch.
  rewrite S. split; [reflexivity|]. split; [reflexivity|].
  unfold w'. simpl. unfold on_color_swatch, seq_.
  rewrite three_checkConstructionComplete. unfold updateShieldVisuals, seq_.
  set (w1 := set_choicesMade _ (set_shield _ w)).
  assert (C1 : colorStep w1 = w1).
  { unfold colorStep. change (shield.color (shield (state w1))) with (JNumber c).
    now rewrite F. }
  rewrite C1.
  destruct (material_sigilStep_colors (symbolStep w1)) as (-> & -> & ->).
  rewrite material_symbolStep. repeat split.
  intros G. unfold sigilStep. rewrite state_symbolStep.
  change (shield.sigil (shield (state w1))) with (shield.sigil (shield (state w))).
  rewrite G. now rewrite material_symbolStep.
Qed.

Lemma falsy_color_black_witness :
  choicesMade.color (choicesMade (state
    (dispatch asciiUpper (color_swatch_click (Num 0)) (initial_world example_markup)))) = true
  /\ shieldSphere_material (three
       (dispatch asciiUpper (color_swatch_click (Num 0)) (initial_world example_markup)))
     = shieldSphere_material (three (initial_world example_markup)).
Proof.
  destruct (falsy_color_is_stored_but_not_shown asciiUpper (Num 0)
              (initial_world example_markup) eq_refl) as (_ & _ & F & _ & _ & _ & M).
  split; [exact F | exact (M eq_refl)].
Defined.

(** X5: a symbol option without a [data-symbol], or with an empty one,
    counts as a choice (the value is stored and the symbol flag set) but the
    projection skips it: the markers of the symbol chosen before stay in
    [symbolObjects] and in the scene. *)
Theorem falsy_symbol_keeps_the_markers :
  forall (toUpperCase : jsstring -> jsstring) (data : option jsstring) (w : World),
    truthy (dataset data) = false ->
    let w' := dispatch toUpperCase (symbol_option_click data) w in
    (data = None \/ data = Some [])
    /\ shield.symbol (shield (state w')) = dataset data
    /\ choicesMade.symbol (choicesMade (state w')) = true
    /\ symbolObjects (three w') = symbolObjects (three w)
    /\ scene (three w') = scene (three w).
Proof.
  intros up data w F w'.
  assert (Hd : data = None \/ data = Some []).
  { destruct data as [[|c s]|]; [now right | discriminate F | now left]. }
  split; [exact Hd|].
  assert (S : state w'
              = mkState (currentScreen (state w)) (energyType (state w))
                  (shield.mk (shield.color (shield (state w))) (dataset data)
                             (shield.sigil (shield (state w))))
                  (choicesMade.mk (choicesMade.color (choicesMade (state w))) true
                                  (choicesMade.sigil (choicesMade (state w)))))
    by apply state_on_symbol_option.
  rewrite S. split; [reflexivity|]. split; [reflexivity|].
  unfold w'. simpl. unfold on_symbol_option, seq_.
  rewrite three_checkConstructionComplete. unfold updateShieldVisuals, seq_.
  set (w1 := set_choicesMade _ (set_shield _ w)).
  destruct (same_markers_sigilStep (symbolStep (colorStep w1))) as (-> & -> & _).
  assert (E : symbolStep (colorStep w1) = colorStep w1).
  { unfold symbolStep. rewrite state_colorStep.
    change (shield.symbol (shield (state w1))) with (dataset data). now rewrite F. }
  rewrite E. destruct (same_markers_colorStep w1) as (-> & -> & _).
  split; reflexivity.
Qed.

Lemma falsy_symbol_after_sun_witness :
  symbolObjects (three
    (dispatch asciiUpper (symbol_option_click None)
       (run asciiUpper example_markup [symbol_option_click (Some (lit "sun.png"))])))
  = markers (JString (lit "sun.png")) 0
  /\ shield.symbol (shield (state
       (dispatch asciiUpper (symbol_option_click None)
          (run asciiUpper example_markup [symbol_option_click (Some (lit "sun.png"))]))))
     = JUndefined.
Proof.
  destruct (falsy_symbol_keeps_the_markers asciiUpper None
              (run asciiUpper example_markup [symbol_option_click (Some (lit "sun.png"))])
              eq_refl) as (_ & V & _ & O & _).
  split; [|exact V]. rewrite O.
  destruct (three_updateShieldVisuals_symbol
              (set_choicesMade
                 (fun c => choicesMade.mk (choicesMade.color c) true (choicesMade.sigil c))
                 (set_shield
                    (fun s => shield.mk (shield.color s) (JString (lit "sun.png"))
                                        (shield.sigil s))
                    (initial_world example_markup))) eq_refl) as (M & _).
  exact M.
Defined.

(** ** What the listeners keep of the visuals *)

(** A drawn submission ends with the projection and the completeness check
    of a world that has the sigil stored, the scene as it was and one stroke
    on the canvas. *)
Lemma generateSigil_is_drawn_world up word w :
  is_drawn up word = true ->
  exists w1,
    generateSigil up word w = checkConstructionComplete (updateShieldVisuals w1)
    /\ state w1 = with_sigil (state w)
    /\ three w1 = three w.
Proof.
  unfold is_drawn. intros H. apply andb_prop in H as [B N].
  apply negb_true_iff in B.
  assert (N' : up word <> []) by (destruct (up word); congruence).
  destruct (sigil_points_cons up word w N') as (p0 & rest & E).
  rewrite (generateSigil_drawn up word w p0 rest B E). unfold seq_.
  eexists. split; [reflexivity|]. split.
  - unfold set_choicesMade, set_shield. rewrite !state_set_state.
    now rewrite state_draw_path.
  - unfold set_choicesMade, set_shield. rewrite !three_set_state.
    now rewrite three_draw_path.
Qed.

Lemma aura_updateShieldVisuals w :
  aura_emissiveIntensity (three (updateShieldVisuals w)) = aura_emissiveIntensity (three w).
Proof.
  unfold updateShieldVisuals, seq_, sigilStep, symbolStep, colorStep.
  repeat (destruct (truthy _); simpl); reflexivity.
Qed.

(** The material after the projection, from the material before it. *)
Lemma material_updateShieldVisuals w :
  shieldSphere_material (three (updateShieldVisuals w))
  = let c := shield.color (shield (state w)) in
    let s := shield.sigil (shield (state w)) in
    let m := shieldSphere_material (three w) in
    let m1 := if truthy c then mkMaterial c c 0.5 0.2 (map_ m) else m in
    if truthy s then
      mkMaterial (mat_color m1) (mat_emissive m1) (emissiveIntensity m1)
                 (Rmax (opacity m1) 0.3)
                 (Some (mkTexture s RepeatWrapping RepeatWrapping (3, 2)%Z))
    else m1.
Proof.
  unfold updateShieldVisuals, seq_. unfold sigilStep at 1.
  rewrite state_symbolStep, state_colorStep.
  destruct (truthy (shield.sigil (shield (state w)))); simpl;
    rewrite material_symbolStep; unfold colorStep;
    destruct (truthy (shield.color (shield (state w)))); reflexivity.
Qed.

Lemma scene_remove_first_marker id rest :
  scene_remove (sprite id) (base_objects ++ sprite id :: rest) = base_objects ++ rest.
Proof. simpl. now rewrite Nat.eqb_refl. Qed.

Lemma scene_clear_markers objs :
  fold_left (fun children obj => scene_remove (sprite (sprite_id obj)) children) objs
            (base_objects ++ List.map (fun s => sprite (sprite_id s)) objs)
  = base_objects.
Proof.
  induction objs as [|obj objs IH].
  - reflexivity.
  - cbn [fold_left List.map]. rewrite scene_remove_first_marker. exact IH.
Qed.

Lemma scene_shape_same w w' : same_markers w w' -> scene_shape w -> scene_shape w'.
Proof. unfold scene_shape. intros (-> & -> & _). tauto. Qed.

Lemma scene_shape_symbolStep w : scene_shape w -> scene_shape (symbolStep w).
Proof.
  intros (S & L).
  destruct (truthy (shield.symbol (shield (state w)))) eqn:T.
  - destruct (three_symbolStep w T) as (O & C & _). unfold scene_shape.
    rewrite O, C. split; [|right; eauto].
    unfold clear_symbols. cbn [scene]. rewrite S, scene_clear_markers.
    unfold markers, marker. cbn [List.map sprite_id]. now rewrite Nat.add_0_r.
  - unfold symbolStep. rewrite T. split; assumption.
Qed.

Lemma scene_shape_updateShieldVisuals w :
  scene_shape w -> scene_shape (updateShieldVisuals w).
Proof.
  intros H. unfold updateShieldVisuals, seq_.
  apply (scene_shape_same (symbolStep (colorStep w))); [apply same_markers_sigilStep|].
  apply scene_shape_symbolStep.
  apply (scene_shape_same w); [apply same_markers_colorStep | exact H].
Qed.

Lemma opacity_level_max o : opacity_level o -> opacity_level (Rmax o 0.3).
Proof.
  unfold opacity_level. intros [-> | [-> | [-> | ->]]].
  - rewrite Rmax_right by lra. auto.
  - rewrite Rmax_right by lra. auto.
  - rewrite Rmax_left by lra. auto.
  - rewrite Rmax_left by lra. auto.
Qed.

(** The projection re-establishes the visuals from the stored choices. *)
Lemma visuals_ok_updateShieldVisuals w :
  scene_shape w ->
  (shield.sigil (shield (state w)) = JNull /\ map_ (shieldSphere_material (three w)) = None
   \/ shield.sigil (shield (state w)) = JElement sigil_canvas) ->
  opacity_level (opacity (shieldSphere_material (three w))) ->
  intensity_level (aura_emissiveIntensity (three w)) ->
  visuals_ok (updateShieldVisuals w).
Proof.
  intros S G O I. split; [apply scene_shape_updateShieldVisuals, S|].
  unfold texture_follows_sigil.
  rewrite state_updateShieldVisuals, material_updateShieldVisuals, aura_updateShieldVisuals.
  cbv zeta. split; [|split; [|exact I]].
  - destruct G as [(G & M)|G]; rewrite G; simpl.
    + left. split; [reflexivity|].
      destruct (truthy (shield.color (shield (state w)))); simpl; exact M.
    + right. split; reflexivity.
  - assert (O1 : opacity_level
                   (opacity (if truthy (shield.color (shield (state w)))
                             then mkMaterial (shield.color (shield (state w)))
                                    (shield.color (shield (state w))) 0.5 0.2
                                    (map_ (shieldSphere_material (three w)))
                             else shieldSphere_material (three w)))).
    { destruct (truthy (shield.color (shield (state w)))); [right; left; reflexivity | exact O]. }
    destruct (truthy (shield.sigil (shield (state w)))); [|exact O1].
    simpl. apply opacity_level_max, O1.
Qed.

Lemma visuals_ok_checkConstructionComplete w :
  visuals_ok w -> visuals_ok (checkConstructionComplete w).
Proof.
  unfold visuals_ok, scene_shape, texture_follows_sigil.
  now rewrite three_checkConstructionComplete, state_checkConstructionComplete.
Qed.

Lemma texture_ready w :
  texture_follows_sigil w ->
  shield.sigil (shield (state w)) = JNull /\ map_ (shieldSphere_material (three w)) = None
  \/ shield.sigil (shield (state w)) = JElement sigil_canvas.
Proof. intros [H|[H _]]; [left; exact H | right; exact H]. Qed.

Lemma visuals_ok_dispatch up e w : visuals_ok w -> visuals_ok (dispatch up e w).
Proof.
  intros (S & T & O & I).
  destruct e; simpl.
  - split; [exact S|]. split; [exact T|]. split; [exact O|]. right; left; reflexivity.
  - split; [exact S|]. split; [exact T|]. split; [exact O | exact I].
  - unfold on_color_swatch, seq_.
    apply visuals_ok_checkConstructionComplete, visuals_ok_updateShieldVisuals;
      [exact S | exact (texture_ready w T) | exact O | exact I].
  - unfold on_symbol_option, seq_.
    apply visuals_ok_checkConstructionComplete, visuals_ok_updateShieldVisuals;
      [exact S | exact (texture_ready w T) | exact O | exact I].
  - destruct (is_drawn up input) eqn:D.
    + destruct (generateSigil_is_drawn_world up input w D) as (w1 & E1 & S1 & T1).
      rewrite E1.
      apply visuals_ok_checkConstructionComplete, visuals_ok_updateShieldVisuals.
      * unfold scene_shape. rewrite T1. exact S.
      * right. rewrite S1. reflexivity.
      * rewrite T1. exact O.
      * rewrite T1. exact I.
    + destruct (generateSigil_not_drawn up input w D) as (S1 & T1 & _).
      unfold visuals_ok, scene_shape, texture_follows_sigil. rewrite S1, T1.
      split; [exact S|]. split; [exact T|]. split; [exact O | exact I].
  - destruct (activate_shield_btn_disabled (document w)).
    + split; [exact S|]. split; [exact T|]. split; [exact O | exact I].
    + split; [exact S|]. split; [exact T|]. split.
      * right; right; right. reflexivity.
      * right; right. simpl. lra.
  - split; [|split; [|split]].
    + destruct S as (S & _). split; [|left; reflexivity].
      simpl. rewrite S. apply scene_clear_markers.
    + left. split; reflexivity.
    + left. reflexivity.
    + left. reflexivity.
Qed.

Lemma visuals_ok_run up m clicks : visuals_ok (run up m clicks).
Proof.
  apply run_invariant.
  - split; [split; [reflexivity | left; reflexivity]|].
    split; [left; split; reflexivity|]. split; left; reflexivity.
  - intros e w. apply visuals_ok_dispatch.
Qed.

(** X6: the restart click undoes the visuals of the choices: right after it
    the scene holds the five objects of [initThree] and no marker, the
    sphere is fully transparent and has no texture, the aura does not glow
    and the sigil canvas is empty.  It does not undo the tint: the colour,
    the glow colour and the glow intensity of the sphere stay as the last
    colour choice left them. *)
Theorem restart_resets_the_visuals :
  forall (toUpperCase : jsstring -> jsstring) (m : Markup) (clicks : list event),
    let before := run toUpperCase m clicks in
    let after := run toUpperCase m (clicks ++ [restart_click]) in
    scene (three after) = base_objects
    /\ symbolObjects (three after) = []
    /\ opacity (shieldSphere_material (three after)) = 0
    /\ map_ (shieldSphere_material (three after)) = None
    /\ aura_emissiveIntensity (three after) = 0
    /\ drawn (canvas (document after)) = []
    /\ glyph after = []
    /\ mat_color (shieldSphere_material (three after))
       = mat_color (shieldSphere_material (three before))
    /\ mat_emissive (shieldSphere_material (three after))
       = mat_emissive (shieldSphere_material (three before))
    /\ emissiveIntensity (shieldSphere_material (three after))
       = emissiveIntensity (shieldSphere_material (three before)).
Proof.
  intros up m clicks before after.
  assert (E : after = on_restart before) by (unfold after; now rewrite run_snoc).
  destruct (visuals_ok_run up m clicks) as ((S & _) & _). fold before in S.
  rewrite E. split; [|repeat split].
  simpl. rewrite S. apply scene_clear_markers.
Qed.

(** X7: markers never pile up: after every sequence of clicks the scene is
    the five objects of [initThree] followed by the sprites of
    [symbolObjects], which holds no marker or the three markers of one
    symbol, so the scene never has more than eight children. *)
Theorem scene_never_accumulates_markers :
  forall (toUpperCase : jsstring -> jsstring) (m : Markup) (clicks : list event),
    let t := three (run toUpperCase m clicks) in
    scene t = base_objects ++ List.map (fun s => sprite (sprite_id s)) (symbolObjects t)
    /\ (symbolObjects t = [] \/ exists symbol n, symbolObjects t = markers symbol n)
    /\ (List.length (symbolObjects t) = 0%nat \/ List.length (symbolObjects t) = 3%nat)
    /\ (List.length (scene t) <= 8)%nat.
Proof.
  intros up m clicks t.
  destruct (visuals_ok_run up m clicks) as ((S & L) & _). fold t in S, L.
  split; [exact S|]. split; [exact L|].
  rewrite S, length_app, length_map.
  destruct L as [-> | (symbol & n & ->)]; simpl; split; auto.
Qed.

(** X8: the sphere carries a texture exactly while a sigil is stored, and
    the texture is then the sigil canvas itself, repeated 3 by 2: after
    every sequence of clicks either no sigil is stored and the sphere has no
    texture, or the stored sigil is the canvas element and the texture reads
    from it. *)
Theorem texture_is_the_stored_canvas :
  forall (toUpperCase : jsstring -> jsstring) (m : Markup) (clicks : list event),
    let w := run toUpperCase m clicks in
    texture_follows_sigil w
    /\ (choicesMade.sigil (choicesMade (state w)) = true
        <-> map_ (shieldSphere_material (three w)) = Some sigil_texture)
    /\ (choicesMade.sigil (choicesMade (state w)) = false
        <-> map_ (shieldSphere_material (three w)) = None).
Proof.
  intros up m clicks w.
  destruct (visuals_ok_run up m clicks) as (_ & T & _). fold w in T.
  destruct (flags_match_values_run up m clicks) as (_ & _ & G). fold w in G.
  split; [exact T|].
  destruct T as [(N & M) | (N & M)]; rewrite G, N, M; simpl;
    repeat split; congruence.
Qed.

(** X9: the opacity of the sphere takes four values only: after every
    sequence of clicks it is 0 (nothing chosen, or restarted), 0.2 (a
    colour), 0.3 (a sigil) or 0.7 (activated); it never exceeds 0.7. *)
Theorem sphere_opacity_levels :
  forall (toUpperCase : jsstring -> jsstring) (m : Markup) (clicks : list event),
    let o := opacity (shieldSphere_material (three (run toUpperCase m clicks))) in
    (o = 0 \/ o = 0.2 \/ o = 0.3 \/ o = 0.7) /\ 0 <= o <= 0.7.
Proof.
  intros up m clicks o.
  destruct (visuals_ok_run up m clicks) as (_ & _ & O & _). fold o in O.
  split; [exact O|]. destruct O as [-> | [-> | [-> | ->]]]; lra.
Qed.

Lemma symbolObjects_updateShieldVisuals_falsy w :
  truthy (shield.symbol (shield (state w))) = false ->
  symbolObjects (three (updateShieldVisuals w)) = symbolObjects (three w).
Proof.
  intros F. unfold updateShieldVisuals, seq_.
  destruct (same_markers_sigilStep (symbolStep (colorStep w))) as (_ & -> & _).
  unfold symbolStep. rewrite state_colorStep, F.
  now destruct (same_markers_colorStep w) as (_ & -> & _).
Qed.

(** X10: the projection can be repeated: a second [updateShieldVisuals]
    leaves the material of the sphere and the [state] object as the first
    left them, and the markers it creates look like the ones it removes
    (same image, position and scale; only their identity is new). *)
Theorem updateShieldVisuals_twice :
  forall (w : World),
    let once := updateShieldVisuals w in
    let twice := updateShieldVisuals once in
    state twice = state once
    /\ shieldSphere_material (three twice) = shieldSphere_material (three once)
    /\ List.map appearance (symbolObjects (three twice))
       = List.map appearance (symbolObjects (three once)).
Proof.
  intros w once twice.
  split; [apply state_updateShieldVisuals|]. split.
  - unfold twice. rewrite material_updateShieldVisuals. fold once.
    unfold once at 1 2. rewrite state_updateShieldVisuals.
    unfold once. rewrite material_updateShieldVisuals. cbv zeta.
    destruct (truthy (shield.color (shield (state w))));
      destruct (truthy (shield.sigil (shield (state w)))); simpl; try reflexivity.
    f_equal. rewrite Rmax_left; [reflexivity | apply Rmax_r].
  - destruct (truthy (shield.symbol (shield (state w)))) eqn:T.
    + assert (T1 : truthy (shield.symbol (shield (state once))) = true).
      { unfold once. now rewrite state_updateShieldVisuals. }
      destruct (three_updateShieldVisuals_symbol once T1) as (O2 & _).
      destruct (three_updateShieldVisuals_symbol w T) as (O1 & _).
      fold once in O1. fold twice in O2. rewrite O1, O2.
      unfold once. rewrite state_updateShieldVisuals. reflexivity.
    + unfold twice. rewrite symbolObjects_updateShieldVisuals_falsy; [reflexivity|].
      unfold once. now rewrite state_updateShieldVisuals.
Qed.

(** X11: completeness does not need a glyph on the canvas: on a page where
    the activate button starts disabled, a blank submission made once
    construction is complete clears the canvas and leaves construction
    complete, the activate button enabled and the canvas (now empty) as the
    texture of the sphere; the activate click that follows is delivered. *)
Theorem blank_submission_after_completion :
  forall (toUpperCase : jsstring -> jsstring) (m : Markup) (clicks : list event)
         (word : jsstring),
    activate_initially_disabled m = true ->
    isComplete (choicesMade (state (run toUpperCase m clicks))) = true ->
    is_blank word = true ->
    let w := run toUpperCase m (clicks ++ [generate_sigil_click word]) in
    glyph w = []
    /\ isComplete (choicesMade (state w)) = true
    /\ activate_shield_btn_disabled (document w) = false
    /\ shield.sigil (shield (state w)) = JElement sigil_canvas
    /\ map_ (shieldSphere_material (three w)) = Some sigil_texture
    /\ active (document (dispatch toUpperCase activate_shield_click w)) = [activation_screen].
Proof.
  intros up m clicks word H C B w.
  assert (E : w = prepared (run up m clicks)).
  { unfold w. rewrite run_snoc. apply generateSigil_blank, B. }
  pose proof (button_reports_run up m clicks H) as R. unfold button_reports in R.
  rewrite C in R. simpl in R.
  destruct (visuals_ok_run up m clicks) as (_ & T & _).
  assert (G : choicesMade.sigil (choicesMade (state (run up m clicks))) = true).
  { unfold isComplete in C. now apply andb_prop in C as [_ C]. }
  destruct (flags_match_values_run up m clicks) as (_ & _ & V). rewrite G in V.
  destruct T as [(N & _) | (N & M)]; [rewrite N in V; discriminate V|].
  assert (D : activate_shield_btn_disabled (document w) = false) by (rewrite E; exact R).
  rewrite active_dispatch. simpl. rewrite D. simpl.
  rewrite E. repeat split; assumption.
Qed.

Lemma blank_submission_after_completion_witness :
  glyph (run asciiUpper example_markup
           [color_swatch_click (Num 255); symbol_option_click (Some (lit "sun.png"));
            generate_sigil_click (lit "SHIELD"); generate_sigil_click (lit " ")]) = []
  /\ activate_shield_btn_disabled (document
       (run asciiUpper example_markup
          [color_swatch_click (Num 255); symbol_option_click (Some (lit "sun.png"));
           generate_sigil_click (lit "SHIELD"); generate_sigil_click (lit " ")])) = false.
Proof.
  destruct (blank_submission_after_completion asciiUpper example_markup
              [color_swatch_click (Num 255); symbol_option_click (Some (lit "sun.png"));
               generate_sigil_click (lit "SHIELD")] (lit " ") eq_refl eq_refl eq_refl)
    as (G & _ & D & _).
  split; [exact G | exact D].
Defined.

(** ** The sigil canvas *)

Lemma canvas_size_draw_path points p0 rest w :
  width (canvas (document (draw_path points p0 rest w))) = width (canvas (document w))
  /\ height (canvas (document (draw_path points p0 rest w))) = height (canvas (document w)).
Proof.
  unfold draw_path, seq_.
  destruct (2 <? List.length points)%nat; simpl; rewrite fold_lineTo_document; split; reflexivity.
Qed.

Lemma canvas_generateSigil up word w :
  width (canvas (document (generateSigil up word w))) = width (canvas (document w))
  /\ height (canvas (document (generateSigil up word w))) = height (canvas (document w))
  /\ (drawn (canvas (document (generateSigil up word w))) = []
      \/ exists points,
           drawn (canvas (document (generateSigil up word w)))
           = [mkStroke "#00ffff" 2 (sigil_path points)]).
Proof.
  destruct (is_blank word) eqn:B.
  - rewrite (generateSigil_blank up word w B). repeat split. now left.
  - destruct (up word) as [|c cs] eqn:N.
    + unfold generateSigil. rewrite B, N. repeat split. now left.
    + assert (N' : up word <> []) by congruence.
      split; [|split].
      * destruct (sigil_points_cons up word w N') as (p0 & rest & E).
        rewrite (generateSigil_drawn up word w p0 rest B E). unfold seq_.
        rewrite canvas_checkConstructionComplete, document_updateShieldVisuals.
        unfold set_choicesMade, set_shield. rewrite !document_set_state.
        now destruct (canvas_size_draw_path (p0 :: rest) p0 rest (ctx_beginPath (prepared w)))
          as (-> & _).
      * destruct (sigil_points_cons up word w N') as (p0 & rest & E).
        rewrite (generateSigil_drawn up word w p0 rest B E). unfold seq_.
        rewrite canvas_checkConstructionComplete, document_updateShieldVisuals.
        unfold set_choicesMade, set_shield. rewrite !document_set_state.
        now destruct (canvas_size_draw_path (p0 :: rest) p0 rest (ctx_beginPath (prepared w)))
          as (_ & ->).
      * right. eexists. apply (drawn_generateSigil_drawn up word w B N').
Qed.

Lemma canvas_ok_dispatch up m e w : canvas_ok m w -> canvas_ok m (dispatch up e w).
Proof.
  intros (W & H & L & F).
  destruct e; simpl; try (repeat split; assumption).
  - unfold canvas_ok, on_color_swatch, seq_.
    rewrite canvas_checkConstructionComplete, document_updateShieldVisuals.
    repeat split; assumption.
  - unfold canvas_ok, on_symbol_option, seq_.
    rewrite canvas_checkConstructionComplete, document_updateShieldVisuals.
    repeat split; assumption.
  - destruct (canvas_generateSigil up input w) as (Ew & Eh & D).
    unfold canvas_ok. rewrite Ew, Eh.
    split; [exact W|]. split; [exact H|].
    destruct D as [-> | (points & ->)]; simpl.
    + split; [lia | constructor].
    + split; [lia|]. repeat constructor.
  - destruct (activate_shield_btn_disabled (document w)); repeat split; assumption.
  - repeat split; try assumption; simpl; [lia | constructor].
Qed.

(** X12: the sigil canvas never holds more than one drawing: after every
    sequence of clicks it has the size the page gave it and at most one
    stroke, drawn in cyan [#00ffff] with line width 2; each submission
    clears what the one before drew. *)
Theorem canvas_holds_one_cyan_stroke :
  forall (toUpperCase : jsstring -> jsstring) (m : Markup) (clicks : list event),
    let c := canvas (document (run toUpperCase m clicks)) in
    width c = canvas_width m
    /\ height c = canvas_height m
    /\ (List.length (drawn c) <= 1)%nat
    /\ (forall s, In s (drawn c) ->
          stroke_style s = "#00ffff"%string /\ stroke_width s = 2%Z).
Proof.
  intros up m clicks c.
  assert (K : canvas_ok m (run up m clicks)).
  { apply run_invariant.
    - repeat split; simpl; [lia | constructor].
    - intros e w. apply canvas_ok_dispatch. }
  destruct K as (W & H & L & F). fold c in W, H, L, F.
  repeat split; try assumption; now apply (proj1 (Forall_forall _ _) F).
Qed.

(** ** The shape of the glyph *)

Lemma glyph_generateSigil_any up word w :
  glyph (generateSigil up word w)
  = if is_blank word then []
    else sigil_points (width (canvas (document w))) (height (canvas (document w))) (up word).
Proof.
  destruct (is_blank word) eqn:B.
  - now rewrite (generateSigil_blank up word w B).
  - destruct (up word) as [|c cs] eqn:N.
    + unfold generateSigil. rewrite B, N. reflexivity.
    + rewrite <- N. apply glyph_generateSigil; congruence.
Qed.


(** X13: the glyph always starts on the horizontal through the centre: the
    point of the first character of a submission that is not blank is at the
    height of the centre, at the radius of that character from it (to its
    right on a canvas wider than 20 pixels). *)
Theorem glyph_starts_beside_the_centre :
  forall (toUpperCase : jsstring -> jsstring) (word : jsstring) (w : World) (char : Z),
    is_blank word = false ->
    nth_error (toUpperCase word) 0 = Some char ->
    let width := width (canvas (document w)) in
    let height := height (canvas (document w)) in
    let radius := (IZR width / 2 - 10) * (IZR (Z.rem (char - 65) 10) / 10 * 0.5 + 0.5) in
    exists p,
      nth_error (glyph (generateSigil toUpperCase word w)) 0 = Some p
      /\ y p = IZR height / 2
      /\ x p = IZR width / 2 + radius
      /\ ((20 < width)%Z -> IZR width / 2 < x p).
Proof.
  intros up word w char B E width height radius.
  eexists. split; [apply (glyph_nth up word w 0 char B E)|].
  unfold sigil_point. cbn [x y]. fold width height radius.
  replace (INR 0 / INR (List.length (up word)) * PI * 2) with 0
    by (simpl; unfold Rdiv; ring).
  rewrite cos_0, sin_0. split; [ring|]. split; [ring|].
  intros W. apply IZR_lt in W.
  pose proof (radius_factor_bound (char - 65)) as F.
  assert (0 < radius) by (unfold radius; nra). lra.
Qed.

Lemma glyph_of_one_letter_witness :
  exists p,
    nth_error (glyph (generateSigil asciiUpper (lit "a") (initial_world example_markup))) 0
    = Some p
    /\ y p = 150 / 2.
Proof.
  destruct (glyph_starts_beside_the_centre asciiUpper (lit "a")
              (initial_world example_markup) 65 eq_refl eq_refl) as (p & E & Y & _).
  exists p. split; [exact E | exact Y].
Defined.

Lemma letter_range c : is_letter c = true -> (65 <= c <= 122)%Z.
Proof.
  unfold is_letter. intros H.
  apply orb_prop in H as [H|H]; apply andb_prop in H as [L U];
    apply Z.leb_le in L, U; lia.
Qed.

Lemma letter_not_whitespace c : is_letter c = true -> isWhiteSpace c = false.
Proof.
  intros H. apply letter_range in H. unfold isWhiteSpace.
  repeat match goal with
         | |- context [(c =? ?k)%Z] =>
             replace (c =? k)%Z with false by (symmetry; apply Z.eqb_neq; lia)
         end.
  replace (c <=? 13)%Z with false by (symmetry; apply Z.leb_gt; lia).
  replace (8192 <=? c)%Z with false by (symmetry; apply Z.leb_gt; lia).
  now rewrite andb_false_r.
Qed.





Lemma upperUnit_whitespace c : isWhiteSpace (upperUnit c) = isWhiteSpace c.
Proof.
  unfold upperUnit.
  destruct ((97 <=? c) && (c <=? 122))%Z eqn:E; [|reflexivity].
  apply andb_prop in E as [L U]. apply Z.leb_le in L, U.
  assert (A : is_letter c = true).
  { unfold is_letter. apply orb_true_iff. right. apply andb_true_iff.
    split; apply Z.leb_le; lia. }
  assert (B : is_letter (c - 32) = true).
  { unfold is_letter. apply orb_true_iff. left. apply andb_true_iff.
    split; apply Z.leb_le; lia. }
  now rewrite (letter_not_whitespace _ A), (letter_not_whitespace _ B).
Qed.

Lemma is_blank_asciiUpper word : is_blank (asciiUpper word) = is_blank word.
Proof.
  assert (F : forallb isWhiteSpace (asciiUpper word) = forallb isWhiteSpace word).
  { unfold asciiUpper. induction word as [|c word IH]; simpl; [reflexivity|].
    now rewrite upperUnit_whitespace, IH. }
  pose proof (is_blank_iff_whitespace (asciiUpper word)) as A.
  pose proof (is_blank_iff_whitespace word) as B.
  rewrite F in A.
  destruct (is_blank (asciiUpper word)), (is_blank word); try reflexivity.
  - symmetry. apply B, A. reflexivity.
  - apply A, B. reflexivity.
Qed.

(** X15: the sigil does not depend on the case of Basic Latin letters: two
    Basic Latin words that differ only by the case of their letters leave
    the same world, hence the same glyph (for a host whose [toUpperCase] is a
    case mapping). *)
Theorem sigil_ignores_letter_case :
  forall (toUpperCase : jsstring -> jsstring) (word1 word2 : jsstring) (w : World),
    case_mapping toUpperCase ->
    basic_latin word1 ->
    basic_latin word2 ->
    asciiUpper word1 = asciiUpper word2 ->
    generateSigil toUpperCase word1 w = generateSigil toUpperCase word2 w
    /\ glyph (generateSigil toUpperCase word1 w) = glyph (generateSigil toUpperCase word2 w).
Proof.
  intros up word1 word2 w [Hlatin _] B1 B2 E.
  assert (G : generateSigil up word1 w = generateSigil up word2 w).
  { unfold generateSigil.
    rewrite <- (is_blank_asciiUpper word1), <- (is_blank_asciiUpper word2), E.
    rewrite (Hlatin word1 B1), (Hlatin word2 B2).
    fold (asciiUpper word1). fold (asciiUpper word2). now rewrite E. }
  split; [exact G | now rewrite G].
Qed.

Lemma sigil_of_shield_in_two_cases_witness :
  generateSigil asciiUpper (lit "Shield") (initial_world example_markup)
  = generateSigil asciiUpper (lit "SHIELD") (initial_world example_markup).
Proof.
  refine (proj1 (sigil_ignores_letter_case asciiUpper (lit "Shield") (lit "SHIELD")
                   (initial_world example_markup) asciiUpper_case_mapping _ _ eq_refl));
    repeat constructor; simpl; lia.
Defined.

Lemma map_index_from_same {A B : Type} (R : A -> A -> Prop) (f g : A -> nat -> B) l1 l2 :
  Forall2 R l1 l2 ->
  (forall a b i, R a b -> f a i = g b i) ->
  forall k, map_index_from f k l1 = map_index_from g k l2.
Proof.
  intros H Hfg. induction H as [|a b l1 l2 Hab _ IH]; intros k; simpl.
  - reflexivity.
  - now rewrite (Hfg a b k Hab), IH.
Qed.

Lemma same_ring a b :
  (65 <= a)%Z -> (65 <= b)%Z -> (a mod 10 = b mod 10)%Z ->
  Z.rem (a - 65) 10 = Z.rem (b - 65) 10.
Proof.
  intros Ha Hb E. rewrite !Z.rem_mod_nonneg by lia.
  rewrite (Zminus_mod a), (Zminus_mod b), E. reflexivity.
Qed.

(** X16: different words can give the same glyph: two submissions that are
    not blank, whose upper-cased characters are, position by position, at
    or above ['A'] and equal modulo 10 (as ['A'] and ['K'], ten letters
    apart), leave the same points on the canvas. *)
Theorem letters_ten_apart_collide :
  forall (toUpperCase : jsstring -> jsstring) (word1 word2 : jsstring) (w : World),
    is_blank word1 = false ->
    is_blank word2 = false ->
    Forall2 (fun a b => (65 <= a)%Z /\ (65 <= b)%Z /\ (a mod 10 = b mod 10)%Z)
            (toUpperCase word1) (toUpperCase word2) ->
    glyph (generateSigil toUpperCase word1 w) = glyph (generateSigil toUpperCase word2 w).
Proof.
  intros up word1 word2 w B1 B2 H.
  rewrite !glyph_generateSigil_any, B1, B2.
  unfold sigil_points, map_index. rewrite (Forall2_length H).
  apply (map_index_from_same _ _ _ _ _ H).
  intros a b i (Ha & Hb & E). unfold sigil_point.
  now rewrite (same_ring a b Ha Hb E).
Qed.

Lemma words_AB_and_KL_collide_witness :
  glyph (generateSigil asciiUpper (lit "ab") (initial_world example_markup))
  = glyph (generateSigil asciiUpper (lit "KL") (initial_world example_markup)).
Proof.
  apply (letters_ten_apart_collide asciiUpper (lit "ab") (lit "KL")
           (initial_world example_markup) eq_refl eq_refl).
  change (Forall2 (fun a b => (65 <= a)%Z /\ (65 <= b)%Z /\ (a mod 10 = b mod 10)%Z)
                  [65; 66]%Z [75; 76]%Z).
  constructor; [repeat split; try lia; reflexivity|].
  constructor; [repeat split; try lia; reflexivity|].
  constructor.
Defined.

(** ** The page with its animation and its sounds *)

Lemma play_snoc up m ticks t :
  play up m (ticks ++ [t]) = step up t (play up m ticks).
Proof. unfold play. now rewrite fold_left_app. Qed.

Lemma play_app up m ticks ticks' :
  play up m (ticks ++ ticks') = fold_left (fun p t => step up t p) ticks' (play up m ticks).
Proof. unfold play. now rewrite fold_left_app. Qed.

Lemma play_invariant up m (P : Page -> Prop) :
  P (initial_page m) ->
  (forall t p, P p -> P (step up t p)) ->
  forall ticks, P (play up m ticks).
Proof.
  intros H0 Hstep ticks. unfold play.
  generalize (initial_page m) H0. induction ticks as [|t ticks IH]; intros p Hp; simpl.
  - exact Hp.
  - apply IH, Hstep, Hp.
Qed.

Lemma world_fold up ticks : forall p,
  world (fold_left (fun p t => step up t p) ticks p)
  = fold_left (fun w e => dispatch up e w) (clicks_of ticks) (world p).
Proof.
  induction ticks as [|t ticks IH]; intros p; simpl; [reflexivity|].
  rewrite IH. destruct t; reflexivity.
Qed.

Lemma world_play up m ticks : world (play up m ticks) = run up m (clicks_of ticks).
Proof. apply world_fold. Qed.

Lemma aura_frame_bounds now e o :
  0 < e ->
  o = (sin (IZR now * 0.002) * 0.1 + 0.3) * e ->
  0.2 * e <= o <= 0.4 * e.
Proof.
  intros He ->. pose proof (SIN_bound (IZR now * 0.002)) as [L U]. split; nra.
Qed.

Lemma aura_opacity_animate now w mo :
  aura_opacity (animate now w mo)
  = if Rlt_dec 0 (aura_emissiveIntensity (three w)) then
      (sin (IZR now * 0.002) * 0.1 + 0.3) * aura_emissiveIntensity (three w)
    else aura_opacity mo.
Proof. reflexivity. Qed.

(** X18: the aura is never more than 0.4 opaque: after any mix of clicks,
    frames and loads its opacity is between 0 and 0.4, and a frame drawn
    while the aura glows (glow intensity [e] above 0) sets it between
    [0.2 e] and [0.4 e], hence to 0.1 at least. *)
Theorem aura_opacity_bounds :
  forall (toUpperCase : jsstring -> jsstring) (m : Markup) (ticks : list tick) (now : Z),
    let p := play toUpperCase m ticks in
    let e := aura_emissiveIntensity (three (world p)) in
    0 <= aura_opacity (motion p) <= 0.4
    /\ (e = 0 \/ e = 0.5 \/ e = 1)
    /\ (0 < e ->
        0.2 * e <= aura_opacity (motion (step toUpperCase (frame now) p)) <= 0.4 * e
        /\ 0.1 <= aura_opacity (motion (step toUpperCase (frame now) p)))
    /\ (e = 0 ->
        aura_opacity (motion (step toUpperCase (frame now) p)) = aura_opacity (motion p)).
Proof.
  intros up m ticks now p e.
  assert (I : intensity_level e).
  { unfold e, p. rewrite world_play. apply visuals_ok_run. }
  assert (B : 0 <= aura_opacity (motion p) <= 0.4).
  { apply (play_invariant up m
             (fun p => intensity_level (aura_emissiveIntensity (three (world p)))
                       /\ 0 <= aura_opacity (motion p) <= 0.4)).
    - split; [left; reflexivity|]. unfold initial_page. cbn [motion].
      rewrite aura_opacity_animate.
      destruct (Rlt_dec 0 (aura_emissiveIntensity (three (initial_world m))));
        [simpl in *; lra | simpl; lra].
    - intros t q (Iq & Bq). destruct t as [e0|now0|ok0]; unfold step; cbn [world motion].
      + split; [|exact Bq].
        destruct e0; simpl; try exact Iq.
        * right; left; reflexivity.
        * unfold on_color_swatch, seq_.
          rewrite three_checkConstructionComplete, aura_updateShieldVisuals. exact Iq.
        * unfold on_symbol_option, seq_.
          rewrite three_checkConstructionComplete, aura_updateShieldVisuals. exact Iq.
        * destruct (is_drawn up input) eqn:D.
          -- destruct (generateSigil_is_drawn_world up input (world q) D)
               as (w1 & E1 & _ & T1).
             rewrite E1, three_checkConstructionComplete, aura_updateShieldVisuals, T1.
             exact Iq.
          -- destruct (generateSigil_not_drawn up input (world q) D) as (_ & T1 & _).
             rewrite T1. exact Iq.
        * destruct (activate_shield_btn_disabled (document (world q))); [exact Iq|].
          right; right. simpl. lra.
        * left. reflexivity.
      + split; [exact Iq|]. rewrite aura_opacity_animate.
        destruct (Rlt_dec 0 (aura_emissiveIntensity (three (world q)))) as [P|P]; [|exact Bq].
        pose proof (aura_frame_bounds now0 _ _ P eq_refl) as F.
        destruct Iq as [Z | [H | O]]; rewrite ?Z, ?H, ?O in *; lra.
      + split; assumption. }
  split; [exact B|]. split; [exact I|]. split.
  - intros P. unfold step. cbn [motion]. rewrite aura_opacity_animate. fold e.
    destruct (Rlt_dec 0 e) as [_|N]; [|contradiction].
    pose proof (aura_frame_bounds now e _ P eq_refl) as F.
    split; [exact F|]. destruct I as [Z | [H | O]]; rewrite ?Z, ?H, ?O in *; lra.
  - intros Z. unfold step. cbn [motion]. rewrite aura_opacity_animate. fold e.
    destruct (Rlt_dec 0 e) as [P|_]; [lra | reflexivity].
Qed.

Lemma frames_without_glow up frames : forall p,
  forallb is_frame frames = true ->
  aura_emissiveIntensity (three (world p)) = 0 ->
  world (fold_left (fun p t => step up t p) frames p) = world p
  /\ aura_opacity (motion (fold_left (fun p t => step up t p) frames p))
     = aura_opacity (motion p).
Proof.
  induction frames as [|t frames IH]; intros p F Z; simpl; [split; reflexivity|].
  simpl in F. apply andb_prop in F as [Ft F].
  destruct t as [e|now|ok]; try discriminate Ft.
  destruct (IH (step up (frame now) p) F Z) as (-> & ->).
  split; [reflexivity|]. unfold step. cbn [motion]. rewrite aura_opacity_animate, Z.
  destruct (Rlt_dec 0 0) as [P|_]; [lra | reflexivity].
Qed.

Lemma glowing_frame_opacity up m ticks now :
  0 < aura_emissiveIntensity (three (world (play up m ticks))) ->
  0.1 <= aura_opacity (motion (step up (frame now) (play up m ticks))).
Proof.
  intros P.
  assert (I : intensity_level (aura_emissiveIntensity (three (world (play up m ticks))))).
  { rewrite world_play. apply visuals_ok_run. }
  unfold step. cbn [motion]. rewrite aura_opacity_animate.
  destruct (Rlt_dec 0 (aura_emissiveIntensity (three (world (play up m ticks)))))
    as [_|N]; [|contradiction].
  pose proof (aura_frame_bounds now _ _ P eq_refl) as F.
  destruct I as [Z | [H | O]]; rewrite ?Z, ?H, ?O in *; lra.
Qed.

(** X19: the restart does not hide the aura: the restart listener puts the
    glow intensity of the aura back to 0 but leaves its opacity, and a frame
    writes the opacity only while the aura glows, so through the restart and
    any number of frames after it the aura keeps the opacity it had; when
    the last tick before the restart was a frame drawn while the aura
    glowed, that is 0.1 at least. *)
Theorem restart_keeps_the_aura_opacity :
  forall (toUpperCase : jsstring -> jsstring) (m : Markup) (ticks frames : list tick)
         (now : Z),
    forallb is_frame frames = true ->
    aura_emissiveIntensity
      (three (world (play toUpperCase m (ticks ++ click restart_click :: frames)))) = 0
    /\ aura_opacity (motion (play toUpperCase m (ticks ++ click restart_click :: frames)))
       = aura_opacity (motion (play toUpperCase m ticks))
    /\ (0 < aura_emissiveIntensity (three (world (play toUpperCase m ticks))) ->
        0.1 <= aura_opacity
                 (motion (play toUpperCase m
                            ((ticks ++ [frame now]) ++ click restart_click :: frames)))).
Proof.
  intros up m ticks frames now F.
  assert (K : forall ticks0,
            aura_emissiveIntensity
              (three (world (play up m (ticks0 ++ click restart_click :: frames)))) = 0
            /\ aura_opacity (motion (play up m (ticks0 ++ click restart_click :: frames)))
               = aura_opacity (motion (play up m ticks0))).
  { intros ticks0. rewrite play_app. cbn [fold_left].
    destruct (frames_without_glow up frames
                (step up (click restart_click) (play up m ticks0)) F eq_refl) as (W & O).
    rewrite W, O. split; reflexivity. }
  destruct (K ticks) as (Z & O). split; [exact Z|]. split; [exact O|].
  intros P. destruct (K (ticks ++ [frame now])) as (_ & O1). rewrite O1, play_snoc.
  exact (glowing_frame_opacity up m ticks now P).
Qed.

Lemma buffers_playSound b a :
  transitionSoundBuffer (playSound b a) = transitionSoundBuffer a
  /\ activationSoundBuffer (playSound b a) = activationSoundBuffer a.
Proof. destruct b; split; reflexivity. Qed.

(** No listener writes the buffers. *)
Lemma buffers_click up e p :
  transitionSoundBuffer (audio (step up (click e) p)) = transitionSoundBuffer (audio p)
  /\ activationSoundBuffer (audio (step up (click e) p)) = activationSoundBuffer (audio p).
Proof.
  unfold step. cbn [audio].
  destruct (delivered e (world p)); [|split; reflexivity].
  destruct e; cbn [handler_audio]; try (split; reflexivity);
    try apply buffers_playSound.
  destruct (buffers_playSound (activationSoundBuffer (audio p))
              (playSound (transitionSoundBuffer (audio p)) (audio p))) as (-> & ->).
  apply buffers_playSound.
Qed.

(** The loads that have settled leave the buffers in one of three states. *)
Lemma loader_states up m ticks :
  let p := play up m ticks in
  (loader p = awaiting_transition
   /\ transitionSoundBuffer (audio p) = None /\ activationSoundBuffer (audio p) = None)
  \/ (loader p = awaiting_activation
      /\ transitionSoundBuffer (audio p) = Some transition_sound
      /\ activationSoundBuffer (audio p) = None)
  \/ (loader p = load_over
      /\ (transitionSoundBuffer (audio p) = None
          \/ transitionSoundBuffer (audio p) = Some transition_sound)
      /\ (activationSoundBuffer (audio p) = None
          \/ activationSoundBuffer (audio p) = Some activation_sound
             /\ transitionSoundBuffer (audio p) = Some transition_sound)).
Proof.
  apply (play_invariant up m (fun p =>
    (loader p = awaiting_transition
     /\ transitionSoundBuffer (audio p) = None /\ activationSoundBuffer (audio p) = None)
    \/ (loader p = awaiting_activation
        /\ transitionSoundBuffer (audio p) = Some transition_sound
        /\ activationSoundBuffer (audio p) = None)
    \/ (loader p = load_over
        /\ (transitionSoundBuffer (audio p) = None
            \/ transitionSoundBuffer (audio p) = Some transition_sound)
        /\ (activationSoundBuffer (audio p) = None
            \/ activationSoundBuffer (audio p) = Some activation_sound
               /\ transitionSoundBuffer (audio p) = Some transition_sound)))).
  - left. repeat split.
  - intros t p H. destruct t as [e|now|ok].
    + destruct (buffers_click up e p) as (-> & ->). exact H.
    + exact H.
    + unfold step; cbn [loader audio].
      destruct H as [(L & T & A) | [(L & T & A) | (L & T & A)]]; rewrite L; destruct ok; simpl.
      * right; left. repeat split. exact A.
      * right; right. split; [reflexivity|]. rewrite T, A. split; left; reflexivity.
      * right; right. split; [reflexivity|]. rewrite T.
        split; [right; reflexivity | right; split; reflexivity].
      * right; right. split; [reflexivity|]. rewrite T, A.
        split; [right; reflexivity | left; reflexivity].
      * right; right. split; [reflexivity|]. split; assumption.
      * right; right. split; [reflexivity|]. split; assumption.
Qed.

(** X20: the two sounds load one after the other inside one [try]: after any
    mix of clicks, frames and loads the activation sound is loaded only if
    the transition sound is, and when the load of the transition sound fails
    neither sound is ever loaded, whatever settles later. *)
Theorem sounds_load_in_order :
  forall (toUpperCase : jsstring -> jsstring) (m : Markup) (ticks later : list tick),
    let p := play toUpperCase m ticks in
    (activationSoundBuffer (audio p) <> None ->
     activationSoundBuffer (audio p) = Some activation_sound
     /\ transitionSoundBuffer (audio p) = Some transition_sound)
    /\ (transitionSoundBuffer (audio p) <> None ->
        transitionSoundBuffer (audio p) = Some transition_sound)
    /\ (loader p = awaiting_transition ->
        let q := play toUpperCase m (ticks ++ sound_settled false :: later) in
        transitionSoundBuffer (audio q) = None /\ activationSoundBuffer (audio q) = None).
Proof.
  intros up m ticks later p.
  pose proof (loader_states up m ticks) as H. fold p in H. cbv zeta in H.
  split; [|split].
  - destruct H as [(_ & _ & A) | [(_ & _ & A) | (_ & _ & [A | A])]];
      try congruence; try (intros _; exact A).
  - destruct H as [(_ & T & _) | [(_ & T & _) | (_ & [T | T] & _)]]; congruence.
  - intros L q.
    destruct H as [(_ & T & A) | [(L' & _) | (L' & _)]]; try congruence.
    unfold q. rewrite play_app. cbn [fold_left]. fold p.
    assert (K : forall ticks' r,
              loader r = load_over ->
              transitionSoundBuffer (audio r) = None ->
              activationSoundBuffer (audio r) = None ->
              transitionSoundBuffer (audio (fold_left (fun p t => step up t p) ticks' r))
              = None
              /\ activationSoundBuffer
                   (audio (fold_left (fun p t => step up t p) ticks' r)) = None).
    { induction ticks' as [|t ticks' IH]; intros r Lr Tr Ar; [split; assumption|].
      cbn [fold_left]. apply IH.
      - destruct t; unfold step; cbn [loader]; [exact Lr | exact Lr |].
        rewrite Lr. reflexivity.
      - destruct t as [e|now|ok].
        + destruct (buffers_click up e r) as (-> & _). exact Tr.
        + exact Tr.
        + unfold step. cbn [audio]. rewrite Lr. exact Tr.
      - destruct t as [e|now|ok].
        + destruct (buffers_click up e r) as (_ & ->). exact Ar.
        + exact Ar.
        + unfold step. cbn [audio]. rewrite Lr. exact Ar. }
    apply K; unfold step; cbn [loader audio]; rewrite L; simpl; assumption || reflexivity.
Qed.

Lemma sounds_load_in_order_witness :
  transitionSoundBuffer (audio
    (play asciiUpper example_markup
       ([click start_diagnostic_click] ++ sound_settled false :: [sound_settled true]))) = None.
Proof.
  exact (proj1 (proj2 (proj2 (sounds_load_in_order asciiUpper example_markup
                                [click start_diagnostic_click] [sound_settled true]))
                 eq_refl)).
Defined.

Lemma restart_keeps_the_aura_opacity_witness :
  aura_opacity (motion
    (play asciiUpper example_markup
       ([click start_diagnostic_click; frame 1000]
          ++ click restart_click :: [frame 2000; frame 3000])))
  = aura_opacity (motion
      (play asciiUpper example_markup [click start_diagnostic_click; frame 1000])).
Proof.
  exact (proj1 (proj2 (restart_keeps_the_aura_opacity asciiUpper example_markup
                         [click start_diagnostic_click; frame 1000]
                         [frame 2000; frame 3000] 0 eq_refl))).
Defined.

(** ** The sounds that are started *)

Lemma loaded_playSound b a s : loaded a s -> loaded (playSound b a) s.
Proof. destruct b, s; simpl; auto. Qed.

Lemma sounds_ok_playSound b a :
  (b = None \/ b = Some transition_sound /\ loaded a transition_sound
   \/ b = Some activation_sound /\ loaded a activation_sound) ->
  Forall (loaded a) (started a) ->
  Forall (loaded (playSound b a)) (started (playSound b a)).
Proof.
  intros [-> | [(-> & L) | (-> & L)]] F; [exact F| |]; simpl;
    apply Forall_app; split; try (repeat constructor; exact L); exact F.
Qed.

Lemma buffer_cases a :
  (transitionSoundBuffer a = None \/ transitionSoundBuffer a = Some transition_sound) ->
  transitionSoundBuffer a = None
  \/ transitionSoundBuffer a = Some transition_sound /\ loaded a transition_sound
  \/ transitionSoundBuffer a = Some activation_sound /\ loaded a activation_sound.
Proof. intros [H|H]; [left; exact H | right; left; split; exact H]. Qed.

Lemma sounds_ok_step up t p : sounds_ok p -> sounds_ok (step up t p).
Proof.
  intros (T & A & F). destruct t as [e|now|ok].
  - unfold sounds_ok. destruct (buffers_click up e p) as (-> & ->).
    split; [exact T|]. split; [exact A|].
    unfold step. cbn [audio]. destruct (delivered e (world p)); [|exact F].
    pose proof (buffer_cases (audio p) T) as CT.
    assert (F1 : Forall (loaded (playSound (transitionSoundBuffer (audio p)) (audio p)))
                        (started (playSound (transitionSoundBuffer (audio p)) (audio p))))
      by (apply sounds_ok_playSound; assumption).
    destruct e; cbn [handler_audio]; try exact F; try exact F1.
    apply sounds_ok_playSound; [|exact F1].
    destruct A as [A|A]; [left; exact A|]. right; right.
    split; [exact A|]. apply loaded_playSound. exact A.
  - exact (conj T (conj A F)).
  - unfold sounds_ok, step. cbn [audio].
    destruct (loader p), ok; simpl; repeat split; auto;
      apply Forall_forall; intros s Hs; rewrite Forall_forall in F;
      specialize (F s Hs); destruct s; simpl in *; auto.
Qed.

Lemma sounds_ok_play up m ticks : sounds_ok (play up m ticks).
Proof.
  apply play_invariant.
  - split; [left; reflexivity|]. split; [left; reflexivity | constructor].
  - intros t p. apply sounds_ok_step.
Qed.

(** X21: no sound without a loaded buffer and a navigation: every sound
    that was started has its buffer loaded; a colour, symbol or sigil click
    and a click on the disabled activate button start nothing; while the
    transition sound is not loaded no click starts anything; and with both
    sounds loaded a delivered activate click starts the transition sound and
    then the activation sound. *)
Theorem sounds_need_a_buffer_and_a_navigation :
  forall (toUpperCase : jsstring -> jsstring) (m : Markup) (ticks : list tick) (e : event),
    let p := play toUpperCase m ticks in
    (forall s, In s (started (audio p)) -> loaded (audio p) s)
    /\ (target e = None \/ delivered e (world p) = false ->
        audio (step toUpperCase (click e) p) = audio p)
    /\ (transitionSoundBuffer (audio p) = None ->
        audio (step toUpperCase (click e) p) = audio p)
    /\ (loaded (audio p) transition_sound -> loaded (audio p) activation_sound ->
        delivered activate_shield_click (world p) = true ->
        started (audio (step toUpperCase (click activate_shield_click) p))
        = started (audio p) ++ [transition_sound; activation_sound]).
Proof.
  intros up m ticks e p.
  destruct (sounds_ok_play up m ticks) as (_ & _ & F). fold p in F.
  split; [apply Forall_forall, F|]. split; [|split].
  - intros [T|D]; unfold step; cbn [audio].
    + destruct (delivered e (world p)); [|reflexivity]. destruct e; try discriminate T; reflexivity.
    + now rewrite D.
  - intros T. unfold step. cbn [audio].
    destruct (delivered e (world p)); [|reflexivity].
    assert (A : activationSoundBuffer (audio p) = None).
    { pose proof (loader_states up m ticks) as H. fold p in H. cbv zeta in H.
      destruct H as [(_ & _ & A) | [(_ & T' & _) | (_ & _ & [A | (_ & T')])]];
        congruence. }
    destruct e; cbn [handler_audio]; rewrite ?T, ?A; reflexivity.
  - intros T A D. unfold step. cbn [audio]. rewrite D.
    cbn [handler_audio]. simpl in T, A. rewrite T. cbn [playSound].
    cbn [activationSoundBuffer]. rewrite A. cbn [playSound started].
    now rewrite <- app_assoc.
Qed.

(** ** What the frames turn *)

Lemma turn_others objs : forall rotation id,
  ~ In id (List.map sprite_id objs) ->
  fold_left turn objs rotation id = rotation id.
Proof.
  induction objs as [|obj objs IH]; intros rotation id N; simpl; [reflexivity|].
  rewrite IH by (intros H; apply N; right; exact H).
  unfold turn. destruct (Nat.eqb_spec id (sprite_id obj)) as [E|_]; [|reflexivity].
  exfalso. apply N. left. now symmetry.
Qed.

Lemma turn_markers symbol n rotation i :
  (i < 3)%nat ->
  fold_left turn (markers symbol n) rotation (n + i)%nat = rotation (n + i)%nat + 0.01.
Proof.
  intros H. unfold markers. cbn [fold_left]. unfold turn, marker. cbn [sprite_id].
  destruct i as [|[|[|i]]]; [| | |lia];
    repeat match goal with
           | |- context [Nat.eqb ?a ?b] => destruct (Nat.eqb_spec a b); try lia
           end; reflexivity.
Qed.

Lemma next_id_updateShieldVisuals w :
  (next_id (three w) <= next_id (three (updateShieldVisuals w)))%nat.
Proof.
  unfold updateShieldVisuals, seq_.
  destruct (same_markers_sigilStep (symbolStep (colorStep w))) as (_ & _ & ->).
  destruct (same_markers_colorStep w) as (_ & _ & <-).
  destruct (truthy (shield.symbol (shield (state (colorStep w))))) eqn:T.
  - destruct (three_symbolStep (colorStep w) T) as (_ & _ & ->). lia.
  - unfold symbolStep. rewrite T. lia.
Qed.

Lemma next_id_dispatch up e w :
  (next_id (three w) <= next_id (three (dispatch up e w)))%nat.
Proof.
  destruct e; simpl; try lia.
  - unfold on_color_swatch, seq_. rewrite three_checkConstructionComplete.
    apply (next_id_updateShieldVisuals (set_choicesMade _ (set_shield _ w))).
  - unfold on_symbol_option, seq_. rewrite three_checkConstructionComplete.
    apply (next_id_updateShieldVisuals (set_choicesMade _ (set_shield _ w))).
  - destruct (is_drawn up input) eqn:D.
    + destruct (generateSigil_is_drawn_world up input w D) as (w1 & E1 & _ & T1).
      rewrite E1, three_checkConstructionComplete, <- T1.
      apply next_id_updateShieldVisuals.
    + destruct (generateSigil_not_drawn up input w D) as (_ & -> & _). lia.
  - destruct (activate_shield_btn_disabled (document w)); simpl; lia.
Qed.

Lemma unrotated_above_play up m ticks : unrotated_above (play up m ticks).
Proof.
  apply (play_invariant up m (fun p =>
           (markers_in_scene (world p) /\ symbol_has_markers (world p))
           /\ unrotated_above p)).
  - split; [split; [split; [reflexivity | constructor] | discriminate]|].
    intros id _. reflexivity.
  - intros t p (M & U). destruct t as [e|now|ok].
    + split; [apply markers_dispatch, M|].
      intros id H. apply U. pose proof (next_id_dispatch up e (world p)). simpl in H. lia.
    + split; [exact M|]. intros id H. unfold step in *. cbn [world motion] in *.
      unfold animate. cbn [rotation_z]. rewrite turn_others; [apply U, H|].
      destruct M as ((_ & F) & _). rewrite Forall_forall in F.
      intros I. apply in_map_iff in I as (obj & <- & Hobj).
      specialize (F obj Hobj). lia.
    + split; [exact M | exact U].
Qed.

Lemma starfield_play up m ticks :
  starfield_rotation (motion (play up m ticks))
  = (INR (S (frames_of ticks)) * 0.0001, INR (S (frames_of ticks)) * 0.0002).
Proof.
  induction ticks as [|t ticks IH] using rev_ind.
  - simpl. f_equal; ring.
  - rewrite play_snoc. unfold frames_of in *. rewrite filter_app, length_app.
    destruct t as [e|now|ok]; cbn [filter is_frame List.length];
      unfold step; cbn [motion].
    + rewrite Nat.add_0_r. exact IH.
    + rewrite Nat.add_1_r. unfold animate. cbn [starfield_rotation].
      rewrite IH. cbn [fst snd]. rewrite (S_INR (S _)). f_equal; ring.
    + rewrite Nat.add_0_r. exact IH.
Qed.

(** X22: the frames turn the stars and the markers by fixed steps: the
    starfield turns 0.0001 and 0.0002 about its two axes at each call of
    [animate], the one that ends [initThree] and one per frame, so after any
    mix of clicks, loads and [k] frames it has turned [k + 1] such steps; a
    frame turns each of the three current markers by 0.01 more and no other
    sprite; and no rotation has been given to an identity not yet created,
    so the markers of a new symbol start unrotated. *)
Theorem frames_turn_stars_and_markers :
  forall (toUpperCase : jsstring -> jsstring) (m : Markup) (ticks : list tick) (now : Z),
    let p := play toUpperCase m ticks in
    let p' := step toUpperCase (frame now) p in
    starfield_rotation (motion p)
    = (INR (S (frames_of ticks)) * 0.0001, INR (S (frames_of ticks)) * 0.0002)
    /\ motion (initial_page m) = animate now (initial_world m) created_motion
    /\ (forall symbol n i,
          symbolObjects (three (world p)) = markers symbol n -> (i < 3)%nat ->
          rotation_z (motion p') (n + i)%nat = rotation_z (motion p) (n + i)%nat + 0.01)
    /\ (forall id,
          ~ In id (List.map sprite_id (symbolObjects (three (world p)))) ->
          rotation_z (motion p') id = rotation_z (motion p) id)
    /\ (forall id, (next_id (three (world p)) <= id)%nat -> rotation_z (motion p) id = 0).
Proof.
  intros up m ticks now p p'.
  split; [apply starfield_play|]. split; [|split; [|split]].
  - unfold initial_page, animate. cbn [motion]. cbn.
    destruct (Rlt_dec 0 0) as [P|_]; [lra | reflexivity].
  - intros symbol n i E H. unfold p', step. cbn [motion]. unfold animate. cbn [rotation_z].
    rewrite E. now apply turn_markers.
  - intros id N. unfold p', step. cbn [motion]. unfold animate. cbn [rotation_z].
    now apply turn_others.
  - apply unrotated_above_play.
Qed.
